(** * Pull-based reward distribution ledgers (pallets/rewards examples)

    A shallow embedding of the two reference ledgers

    - [pallets/rewards/deferred_rewards_example.py] (module [Deferred],
      "Policy A": immediate settlement, deferred reward, lost-reward
      redistribution), and
    - [pallets/rewards/gap_rewards_example.py] (module [Gap], "Policy B":
      epoch-gapped settlement through a rate history),

    together with the properties their specification states.

    Modelling conventions.

    - A Python object of class [PullBasedDistribution] is a record of its
      attributes; the per-address attributes are Python dictionaries and
      are modelled as finite maps ([gmap Z _]) from addresses to values.
      A subscript read [d[k]] of a missing key raises [KeyError]; a
      subscript write [d[k] = v] inserts or overwrites.
    - Methods mutate the object and may raise.  They are functions in a
      state-and-exception monad [M]: a method maps the state before the
      call to an outcome and the state the object is left in.  An
      exception does not roll anything back, so the state that comes with
      a raised exception is the state at the [raise].
    - Amounts, rewards, rates and tallies are exact rationals ([Q]):
      Python's [+], [-], [*] and true division [/] are read as the exact
      operations, and numeric equality is [Qeq] ([==]).  Python itself
      evaluates [/] in binary64, so an equation or inequality between
      computed amounts that is proved here holds in a run of the scripts
      up to the rounding of the divisions and of the products that follow
      them; what does not depend on arithmetic laws (which exception is
      raised, which attribute is written, with which expression) holds
      as it stands.  Epoch ids are counters that start at zero and only
      ever grow by one ([nat]). *)

From Stdlib Require Import QArith Qminmax Lqa Lia String.
From stdpp Require Import gmap.

Local Open Scope Q_scope.

(** ** Python numbers *)

Module PyNum.

(** [a > b] is [py_gt a b]; [a == b] is [Qeq_bool a b]. *)
Definition py_lt (a b : Q) : bool := negb (Qle_bool b a).
Definition py_gt (a b : Q) : bool := py_lt b a.

(** The builtin [max(a, b)]: the first argument unless the second is
    strictly greater. *)
Definition py_max (a b : Q) : Q := if py_gt b a then b else a.

(** The builtin [min(a, b)]: the first argument unless the second is
    strictly smaller. *)
Definition py_min (a b : Q) : Q := if py_lt b a then b else a.

End PyNum.
Export PyNum.

(** ** Exceptions and the method monad *)

Inductive exn : Type :=
| KeyError
| Exception (msg : string).

(** The two messages the ledgers raise.  The specification calls the
    first failure [EmptyPool] and the second [InsufficientStake]. *)
Definition EmptyPool : exn :=
  Exception "Cannot distribute to staking pool with 0 stake".
Definition InsufficientStake : exn :=
  Exception "Requested amount greater than staked amount".

Inductive outcome (A : Type) : Type :=
| Return (a : A)
| Raise (e : exn).
Arguments Return {A} a.
Arguments Raise {A} e.

Module Method.
Section WithState.
Context {St : Type}.

Definition M (A : Type) : Type := St → outcome A * St.

Definition ret {A} (a : A) : M A := λ s, (Return a, s).
Definition raise {A} (e : exn) : M A := λ s, (Raise e, s).
Definition bind {A B} (m : M A) (k : A → M B) : M B :=
  λ s, match m s with
       | (Return a, s') => k a s'
       | (Raise e, s') => (Raise e, s')
       end.
Definition gets {A} (f : St → A) : M A := λ s, (Return (f s), s).
Definition modify (f : St → St) : M unit := λ s, (Return tt, f s).

(** [d[k]] as an expression. *)
Definition subscript `{Countable K} {V} (d : St → gmap K V) (k : K) : M V :=
  λ s, match d s !! k with
       | Some v => (Return v, s)
       | None => (Raise KeyError, s)
       end.
End WithState.
Arguments M St A : clear implicits.
End Method.
Import Method.

(** The sequencing notations [x ← m; k] and [m;; k] are stdpp's. *)
#[global] Instance method_ret {St} : MRet (M St) := λ A a, ret a.
#[global] Instance method_bind {St} : MBind (M St) := λ A B k m, bind m k.

(** Unfold the monad so that a method applied to a state computes. *)
Ltac unfold_method :=
  cbv [mbind mret method_ret method_bind bind ret raise gets modify subscript].

(** ** The public interface

    Both classes expose the same five methods.  A [call] names one
    invocation; each module interprets it with its own [perform]. *)

Inductive call : Type :=
| Distribute (reward : Q)
| DepositStake (address : Z) (amount : Q)
| WithdrawStake (address : Z) (amount : Q)
| ComputeReward (address : Z)
| WithdrawReward (address : Z).

(** Rewards and amounts are non-negative quantities. *)
Definition nonneg_call (c : call) : Prop :=
  match c with
  | Distribute reward => 0 <= reward
  | DepositStake _ amount | WithdrawStake _ amount => 0 <= amount
  | ComputeReward _ | WithdrawReward _ => True
  end.

(** The address a call is about, if any. *)
Definition call_address (c : call) : option Z :=
  match c with
  | Distribute _ => None
  | DepositStake address _ | WithdrawStake address _
  | ComputeReward address | WithdrawReward address => Some address
  end.

(** The reward a call pays out: what a successful [withdraw_reward]
    returns. *)
Definition reward_out (c : call) (o : outcome (option Q)) : Q :=
  match c, o with
  | WithdrawReward _, Return (Some r) => r
  | _, _ => 0
  end.

(** Two outcomes of [compute_reward] that a caller cannot tell apart: the
    same number, or the same exception. *)
Definition same_reward (o o' : outcome Q) : Prop :=
  match o, o' with
  | Return r, Return r' => r == r'
  | Raise e, Raise e' => e = e'
  | _, _ => False
  end.

(** The addresses [__init__] creates records for. *)
Definition registered : gset Z := {[ 1%Z; 2%Z ]}.

(** Sum of a per-account quantity over a list of addresses. *)
Definition sum_over (f : Z → Q) (l : list Z) : Q :=
  foldr (λ a acc, f a + acc) 0 l.

(** ** Policy A: [deferred_rewards_example.py] *)

Module Deferred.

(** The attributes of a [PullBasedDistribution] object. *)
Record state : Type := State {
  total_stake : Q;
  reward_per_token : Q;
  last_rate : Q;
  lost_reward : Q;
  current_distribution_id : nat;
  stake : gmap Z Q;
  reward_tally : gmap Z Q;
  rewarded_stake : gmap Z Q;
  distribution_id : gmap Z nat
}.

(** Attribute and item assignment. *)
Definition set_total_stake (v : Q) : M state unit :=
  modify (λ s, State v (reward_per_token s) (last_rate s) (lost_reward s)
    (current_distribution_id s) (stake s) (reward_tally s)
    (rewarded_stake s) (distribution_id s)).
Definition set_reward_per_token (v : Q) : M state unit :=
  modify (λ s, State (total_stake s) v (last_rate s) (lost_reward s)
    (current_distribution_id s) (stake s) (reward_tally s)
    (rewarded_stake s) (distribution_id s)).
Definition set_last_rate (v : Q) : M state unit :=
  modify (λ s, State (total_stake s) (reward_per_token s) v (lost_reward s)
    (current_distribution_id s) (stake s) (reward_tally s)
    (rewarded_stake s) (distribution_id s)).
Definition set_lost_reward (v : Q) : M state unit :=
  modify (λ s, State (total_stake s) (reward_per_token s) (last_rate s) v
    (current_distribution_id s) (stake s) (reward_tally s)
    (rewarded_stake s) (distribution_id s)).
Definition set_current_distribution_id (v : nat) : M state unit :=
  modify (λ s, State (total_stake s) (reward_per_token s) (last_rate s)
    (lost_reward s) v (stake s) (reward_tally s)
    (rewarded_stake s) (distribution_id s)).
Definition set_stake (k : Z) (v : Q) : M state unit :=
  modify (λ s, State (total_stake s) (reward_per_token s) (last_rate s)
    (lost_reward s) (current_distribution_id s) (<[k:=v]> (stake s))
    (reward_tally s) (rewarded_stake s) (distribution_id s)).
Definition set_reward_tally (k : Z) (v : Q) : M state unit :=
  modify (λ s, State (total_stake s) (reward_per_token s) (last_rate s)
    (lost_reward s) (current_distribution_id s) (stake s)
    (<[k:=v]> (reward_tally s)) (rewarded_stake s) (distribution_id s)).
Definition set_rewarded_stake (k : Z) (v : Q) : M state unit :=
  modify (λ s, State (total_stake s) (reward_per_token s) (last_rate s)
    (lost_reward s) (current_distribution_id s) (stake s)
    (reward_tally s) (<[k:=v]> (rewarded_stake s)) (distribution_id s)).
Definition set_distribution_id (k : Z) (v : nat) : M state unit :=
  modify (λ s, State (total_stake s) (reward_per_token s) (last_rate s)
    (lost_reward s) (current_distribution_id s) (stake s)
    (reward_tally s) (rewarded_stake s) (<[k:=v]> (distribution_id s))).

(** [__init__] *)
Definition init : state := {|
  total_stake := 0;
  reward_per_token := 0;
  last_rate := 0;
  lost_reward := 0;
  current_distribution_id := 0;
  stake := {[ 1%Z := 0; 2%Z := 0 ]};
  reward_tally := {[ 1%Z := 0; 2%Z := 0 ]};
  rewarded_stake := {[ 1%Z := 0; 2%Z := 0 ]};
  distribution_id := {[ 1%Z := 0%nat; 2%Z := 0%nat ]}
|}.

(** Ensure the [rewarded_stake] contains the last rewarded stake. *)
Definition __update_rewarded_stake (address : Z) : M state unit :=
  d ← subscript distribution_id address;
  cur ← gets current_distribution_id;
  if negb (d =? cur)%nat then
    cur ← gets current_distribution_id;
    set_distribution_id address cur;;
    st ← subscript stake address;
    set_rewarded_stake address st
  else mret tt.

(** Distribute [reward] proportionally to active stakes. *)
Definition distribute (reward : Q) : M state unit :=
  ts ← gets total_stake;
  if Qeq_bool ts 0 then raise EmptyPool
  else
    lost ← gets lost_reward;
    ts ← gets total_stake;
    set_last_rate ((reward + lost) / ts);;
    rpt ← gets reward_per_token;
    lr ← gets last_rate;
    set_reward_per_token (rpt + lr);;
    set_lost_reward 0;;
    cur ← gets current_distribution_id;
    set_current_distribution_id (cur + 1).

(** Increase the stake of [address] by [amount]. *)
Definition deposit_stake (address : Z) (amount : Q) : M state unit :=
  __update_rewarded_stake address;;
  st ← subscript stake address;
  set_stake address (st + amount);;
  tally ← subscript reward_tally address;
  rpt ← gets reward_per_token;
  set_reward_tally address (tally + rpt * amount);;
  ts ← gets total_stake;
  set_total_stake (ts + amount).

(** Decrease the stake of [address] by [amount]. *)
Definition withdraw_stake (address : Z) (amount : Q) : M state unit :=
  st ← subscript stake address;
  if py_gt amount st then raise InsufficientStake
  else
    __update_rewarded_stake address;;
    st ← subscript stake address;
    rs ← subscript rewarded_stake address;
    let unrewarded_stake := py_max (st - rs) 0 in
    let unrewarded_amount := py_min amount unrewarded_stake in
    let rewarded_amount := amount - unrewarded_amount in
    lr ← gets last_rate;
    let lost_reward' := rewarded_amount * lr in
    st ← subscript stake address;
    set_stake address (st - amount);;
    tally ← subscript reward_tally address;
    rpt ← gets reward_per_token;
    set_reward_tally address (tally - (rpt * amount - lost_reward'));;
    ts ← gets total_stake;
    set_total_stake (ts - amount);;
    rs ← subscript rewarded_stake address;
    set_rewarded_stake address (rs - rewarded_amount);;
    lost ← gets lost_reward;
    set_lost_reward (lost + lost_reward').

(** Compute reward of [address].  Immutable. *)
Definition compute_reward (address : Z) : M state Q :=
  previous_stake ← subscript rewarded_stake address;
  d ← subscript distribution_id address;
  cur ← gets current_distribution_id;
  previous_stake ←
    (if negb (d =? cur)%nat then subscript stake address
     else mret previous_stake);
  st ← subscript stake address;
  rpt ← gets reward_per_token;
  tally ← subscript reward_tally address;
  lr ← gets last_rate;
  mret (st * rpt - tally - previous_stake * lr).

(** Withdraw rewards of [address]. *)
Definition withdraw_reward (address : Z) : M state Q :=
  reward ← compute_reward address;
  tally ← subscript reward_tally address;
  set_reward_tally address (tally + reward);;
  mret reward.

(** The module-level example: the calls made on the fresh [contract],
    with the two values it prints. *)
Definition addr1 : Z := 1.
Definition addr2 : Z := 2.

Definition example : M state (Q * Q) :=
  deposit_stake addr1 100;;
  deposit_stake addr2 50;;
  distribute 10;;
  withdraw_stake addr1 100;;
  deposit_stake addr1 50;;
  distribute 10;;
  r1 ← withdraw_reward addr1;
  r2 ← withdraw_reward addr2;
  mret (r1, r2).

(** *** Calls and reachable states *)

Definition perform (c : call) : M state (option Q) :=
  match c with
  | Distribute reward => distribute reward;; mret None
  | DepositStake address amount => deposit_stake address amount;; mret None
  | WithdrawStake address amount => withdraw_stake address amount;; mret None
  | ComputeReward address => r ← compute_reward address; mret (Some r)
  | WithdrawReward address => r ← withdraw_reward address; mret (Some r)
  end.

(** The object after a sequence of calls; a call that raises leaves the
    object as it is at the [raise] and the next call goes on from there. *)
Definition after (calls : list call) (s : state) : state :=
  foldl (λ s c, snd (perform c s)) s calls.

Inductive reachable : state → Prop :=
| reachable_init : reachable init
| reachable_call c s :
    reachable s → nonneg_call c → reachable (snd (perform c s)).

(** *** Quantities the properties speak about *)

Definition accounts (s : state) : list Z := elements (dom (stake s)).
Definition stake_of (s : state) (a : Z) : Q := default 0 (stake s !! a).

(** An account is settled when it is stamped with the current epoch. *)
Definition is_settled (s : state) (a : Z) : bool :=
  bool_decide (distribution_id s !! a = Some (current_distribution_id s)).

Definition settled_stake_sum (s : state) : Q :=
  sum_over (stake_of s) (filter (λ a, is_settled s a = true) (accounts s)).
Definition stake_sum (s : state) : Q := sum_over (stake_of s) (accounts s).

(** The stake [compute_reward] weighs against [last_rate]. *)
Definition previous_stake (s : state) (S R : Q) (d : nat) : Q :=
  if (d =? current_distribution_id s)%nat then R else S.

(** What holds of an account with stake [S], tally [T], rewarded stake
    [R] and stamp [d] in every reachable state. *)
Record account_ok (s : state) (S T R : Q) (d : nat) : Prop := {
  ok_epoch : (d ≤ current_distribution_id s)%nat;
  ok_stake : 0 <= S;
  ok_rewarded : d = current_distribution_id s → 0 <= R ∧ R <= S;
  ok_reward :
    0 <= S * reward_per_token s - T - previous_stake s S R d * last_rate s
}.

Record wf (s : state) : Prop := {
  wf_stake : dom (stake s) = {[ 1%Z; 2%Z ]};
  wf_reward_tally : dom (reward_tally s) = {[ 1%Z; 2%Z ]};
  wf_rewarded_stake : dom (rewarded_stake s) = {[ 1%Z; 2%Z ]};
  wf_distribution_id : dom (distribution_id s) = {[ 1%Z; 2%Z ]};
  wf_last_rate : 0 <= last_rate s;
  wf_lost_reward : 0 <= lost_reward s;
  wf_total_stake : stake_sum s == total_stake s;
  wf_accounts : ∀ a S T R d,
    stake s !! a = Some S → reward_tally s !! a = Some T →
    rewarded_stake s !! a = Some R → distribution_id s !! a = Some d →
    account_ok s S T R d
}.

(** *** Quantities of the reward accounting *)

Definition tally_of (s : state) (a : Z) : Q :=
  default 0 (reward_tally s !! a).

(** What the accumulator has credited to an account and the account has
    not been paid: the claimable reward together with the deferred share
    of the latest distribution. *)
Definition accrued (s : state) (a : Z) : Q :=
  stake_of s a * reward_per_token s - tally_of s a.

(** The reward the ledger holds: credited to the accounts or kept in
    [lost_reward] for the next distribution. *)
Definition outstanding (s : state) : Q :=
  sum_over (accrued s) (accounts s) + lost_reward s.

(** What [compute_reward] gives for an address; nothing where it raises. *)
Definition claimable (s : state) (a : Z) : Q :=
  match fst (compute_reward a s) with Return r => r | Raise _ => 0 end.

(** The reward a call puts in: what a successful [distribute] is given. *)
Definition reward_in (c : call) (o : outcome (option Q)) : Q :=
  match c, o with
  | Distribute reward, Return _ => reward
  | _, _ => 0
  end.

(** Reward put in minus reward paid out along a run of calls. *)
Fixpoint net_inflow (calls : list call) (s : state) : Q :=
  match calls with
  | [] => 0
  | c :: calls' =>
      reward_in c (fst (perform c s)) - reward_out c (fst (perform c s))
      + net_inflow calls' (snd (perform c s))
  end.

(** *** The calls, case by case

    [with_record] rewrites the record of one account and the two totals
    that move with it; [call_view] lists what a call returns and the state
    it leaves, for each way the call can go. *)

Definition record_at (s : state) (a : Z) (S T R : Q) (d : nat) : Prop :=
  stake s !! a = Some S ∧ reward_tally s !! a = Some T ∧
  rewarded_stake s !! a = Some R ∧ distribution_id s !! a = Some d.

Definition with_record (s : state) (a : Z) (total lost S T R : Q) (d : nat)
    : state :=
  State total (reward_per_token s) (last_rate s) lost
    (current_distribution_id s) (<[a:=S]> (stake s))
    (<[a:=T]> (reward_tally s)) (<[a:=R]> (rewarded_stake s))
    (<[a:=d]> (distribution_id s)).

(** The part of a withdrawn [amount] that was counted in the latest
    distribution, for an account with stake [S] of which [R1] was counted. *)
Definition rewarded_part (amount S R1 : Q) : Q :=
  amount - py_min amount (py_max (S - R1) 0).

Inductive call_view (s : state) : call → outcome (option Q) → state → Prop :=
| view_distribute_empty reward :
    total_stake s == 0 →
    call_view s (Distribute reward) (Raise EmptyPool) s
| view_distribute reward :
    ¬ total_stake s == 0 →
    call_view s (Distribute reward) (Return None)
      (State (total_stake s)
         (reward_per_token s + (reward + lost_reward s) / total_stake s)
         ((reward + lost_reward s) / total_stake s) 0
         (current_distribution_id s + 1) (stake s) (reward_tally s)
         (rewarded_stake s) (distribution_id s))
| view_unknown c a :
    call_address c = Some a → stake s !! a = None →
    call_view s c (Raise KeyError) s
| view_deposit_stake a amount S T R d :
    record_at s a S T R d →
    call_view s (DepositStake a amount) (Return None)
      (with_record s a (total_stake s + amount) (lost_reward s)
         (S + amount) (T + reward_per_token s * amount)
         (previous_stake s S R d) (current_distribution_id s))
| view_withdraw_stake_insufficient a amount S T R d :
    record_at s a S T R d → S < amount →
    call_view s (WithdrawStake a amount) (Raise InsufficientStake) s
| view_withdraw_stake a amount S T R d :
    record_at s a S T R d → amount <= S →
    let forfeit :=
      rewarded_part amount S (previous_stake s S R d) * last_rate s in
    call_view s (WithdrawStake a amount) (Return None)
      (with_record s a (total_stake s - amount) (lost_reward s + forfeit)
         (S - amount) (T - (reward_per_token s * amount - forfeit))
         (previous_stake s S R d
          - rewarded_part amount S (previous_stake s S R d))
         (current_distribution_id s))
| view_compute_reward a S T R d :
    record_at s a S T R d →
    call_view s (ComputeReward a)
      (Return (Some (S * reward_per_token s - T
                     - previous_stake s S R d * last_rate s))) s
| view_withdraw_reward a S T R d :
    record_at s a S T R d →
    let reward := S * reward_per_token s - T
                  - previous_stake s S R d * last_rate s in
    call_view s (WithdrawReward a) (Return (Some reward))
      (with_record s a (total_stake s) (lost_reward s) S (T + reward) R d).

End Deferred.

(** ** Policy B: [gap_rewards_example.py] *)

Module Gap.

(** The attributes of a [PullBasedDistribution] object. *)
Record state : Type := State {
  total_stake : Q;
  total_pending_stake : Q;
  reward_per_token : Q;
  reward_per_token_history : gmap nat Q;
  current_distribution_id : nat;
  stake : gmap Z Q;
  reward_tally : gmap Z Q;
  pending_stake : gmap Z Q;
  distribution_id : gmap Z nat
}.

(** Attribute and item assignment. *)
Definition set_total_stake (v : Q) : M state unit :=
  modify (λ s, State v (total_pending_stake s) (reward_per_token s)
    (reward_per_token_history s) (current_distribution_id s) (stake s)
    (reward_tally s) (pending_stake s) (distribution_id s)).
Definition set_total_pending_stake (v : Q) : M state unit :=
  modify (λ s, State (total_stake s) v (reward_per_token s)
    (reward_per_token_history s) (current_distribution_id s) (stake s)
    (reward_tally s) (pending_stake s) (distribution_id s)).
Definition set_reward_per_token (v : Q) : M state unit :=
  modify (λ s, State (total_stake s) (total_pending_stake s) v
    (reward_per_token_history s) (current_distribution_id s) (stake s)
    (reward_tally s) (pending_stake s) (distribution_id s)).
Definition set_reward_per_token_history (k : nat) (v : Q) : M state unit :=
  modify (λ s, State (total_stake s) (total_pending_stake s)
    (reward_per_token s) (<[k:=v]> (reward_per_token_history s))
    (current_distribution_id s) (stake s)
    (reward_tally s) (pending_stake s) (distribution_id s)).
Definition set_current_distribution_id (v : nat) : M state unit :=
  modify (λ s, State (total_stake s) (total_pending_stake s)
    (reward_per_token s) (reward_per_token_history s) v (stake s)
    (reward_tally s) (pending_stake s) (distribution_id s)).
Definition set_stake (k : Z) (v : Q) : M state unit :=
  modify (λ s, State (total_stake s) (total_pending_stake s)
    (reward_per_token s) (reward_per_token_history s)
    (current_distribution_id s) (<[k:=v]> (stake s))
    (reward_tally s) (pending_stake s) (distribution_id s)).
Definition set_reward_tally (k : Z) (v : Q) : M state unit :=
  modify (λ s, State (total_stake s) (total_pending_stake s)
    (reward_per_token s) (reward_per_token_history s)
    (current_distribution_id s) (stake s)
    (<[k:=v]> (reward_tally s)) (pending_stake s) (distribution_id s)).
Definition set_pending_stake (k : Z) (v : Q) : M state unit :=
  modify (λ s, State (total_stake s) (total_pending_stake s)
    (reward_per_token s) (reward_per_token_history s)
    (current_distribution_id s) (stake s)
    (reward_tally s) (<[k:=v]> (pending_stake s)) (distribution_id s)).
Definition set_distribution_id (k : Z) (v : nat) : M state unit :=
  modify (λ s, State (total_stake s) (total_pending_stake s)
    (reward_per_token s) (reward_per_token_history s)
    (current_distribution_id s) (stake s)
    (reward_tally s) (pending_stake s) (<[k:=v]> (distribution_id s))).

(** [__init__] *)
Definition init : state := {|
  total_stake := 0;
  total_pending_stake := 0;
  reward_per_token := 0;
  reward_per_token_history := ∅;
  current_distribution_id := 0;
  stake := {[ 1%Z := 0; 2%Z := 0 ]};
  reward_tally := {[ 1%Z := 0; 2%Z := 0 ]};
  pending_stake := {[ 1%Z := 0; 2%Z := 0 ]};
  distribution_id := {[ 1%Z := 0%nat; 2%Z := 0%nat ]}
|}.

(** Ensure a valid state for the account before using it. *)
Definition __update_state (address : Z) : M state unit :=
  d ← subscript distribution_id address;
  cur ← gets current_distribution_id;
  if negb (d =? cur)%nat then
    st ← subscript stake address;
    pending ← subscript pending_stake address;
    set_stake address (st + pending);;
    tally ← subscript reward_tally address;
    pending ← subscript pending_stake address;
    d ← subscript distribution_id address;
    rate ← subscript reward_per_token_history d;
    set_reward_tally address (tally + pending * rate);;
    cur ← gets current_distribution_id;
    set_distribution_id address cur;;
    set_pending_stake address 0
  else mret tt.

(** Distribute [reward] proportionally to active stakes. *)
Definition distribute (reward : Q) : M state unit :=
  ts ← gets total_stake;
  (if py_gt ts 0 then
     rpt ← gets reward_per_token;
     ts ← gets total_stake;
     set_reward_per_token (rpt + reward / ts)
   else mret tt);;
  prev_distribution_id ← gets current_distribution_id;
  rpt ← gets reward_per_token;
  set_reward_per_token_history prev_distribution_id rpt;;
  cur ← gets current_distribution_id;
  set_current_distribution_id (cur + 1);;
  ts ← gets total_stake;
  tps ← gets total_pending_stake;
  set_total_stake (ts + tps);;
  set_total_pending_stake 0.

(** Increase the stake of [address] by [amount]. *)
Definition deposit_stake (address : Z) (amount : Q) : M state unit :=
  __update_state address;;
  pending ← subscript pending_stake address;
  set_pending_stake address (pending + amount);;
  tps ← gets total_pending_stake;
  set_total_pending_stake (tps + amount).

(** Decrease the stake of [address] by [amount]. *)
Definition withdraw_stake (address : Z) (amount : Q) : M state unit :=
  st ← subscript stake address;
  pending ← subscript pending_stake address;
  if py_gt amount (st + pending) then raise InsufficientStake
  else
    __update_state address;;
    pending ← subscript pending_stake address;
    let pending_amount := py_min amount pending in
    pending ← subscript pending_stake address;
    set_pending_stake address (pending - pending_amount);;
    tps ← gets total_pending_stake;
    set_total_pending_stake (tps - pending_amount);;
    let computed_amount := amount - pending_amount in
    st ← subscript stake address;
    set_stake address (st - computed_amount);;
    tally ← subscript reward_tally address;
    rpt ← gets reward_per_token;
    set_reward_tally address (tally - rpt * computed_amount);;
    ts ← gets total_stake;
    set_total_stake (ts - computed_amount).

(** Compute reward of [address].  Immutable. *)
Definition compute_reward (address : Z) : M state Q :=
  st ← subscript stake address;
  tally ← subscript reward_tally address;
  d ← subscript distribution_id address;
  cur ← gets current_distribution_id;
  '(st, tally) ←
    (if negb (d =? cur)%nat then
       pending ← subscript pending_stake address;
       let st := st + pending in
       pending ← subscript pending_stake address;
       d ← subscript distribution_id address;
       rate ← subscript reward_per_token_history d;
       mret (st, tally + pending * rate)
     else mret (st, tally));
  rpt ← gets reward_per_token;
  mret (st * rpt - tally).

(** Withdraw rewards of [address]. *)
Definition withdraw_reward (address : Z) : M state Q :=
  __update_state address;;
  reward ← compute_reward address;
  st ← subscript stake address;
  rpt ← gets reward_per_token;
  set_reward_tally address (st * rpt);;
  mret reward.

(** The module-level example: the calls made on the fresh [contract],
    with the two values it prints. *)
Definition addr1 : Z := 1.
Definition addr2 : Z := 2.

Definition example : M state (Q * Q) :=
  deposit_stake addr1 100;;
  deposit_stake addr2 50;;
  distribute 0;;
  withdraw_stake addr1 100;;
  deposit_stake addr1 50;;
  distribute 10;;
  r1 ← withdraw_reward addr1;
  r2 ← withdraw_reward addr2;
  mret (r1, r2).

(** *** Calls and reachable states *)

Definition perform (c : call) : M state (option Q) :=
  match c with
  | Distribute reward => distribute reward;; mret None
  | DepositStake address amount => deposit_stake address amount;; mret None
  | WithdrawStake address amount => withdraw_stake address amount;; mret None
  | ComputeReward address => r ← compute_reward address; mret (Some r)
  | WithdrawReward address => r ← withdraw_reward address; mret (Some r)
  end.

Definition after (calls : list call) (s : state) : state :=
  foldl (λ s c, snd (perform c s)) s calls.

Inductive reachable : state → Prop :=
| reachable_init : reachable init
| reachable_call c s :
    reachable s → nonneg_call c → reachable (snd (perform c s)).

(** *** Quantities the properties speak about *)

Definition accounts (s : state) : list Z := elements (dom (stake s)).
Definition stake_of (s : state) (a : Z) : Q := default 0 (stake s !! a).
Definition pending_of (s : state) (a : Z) : Q :=
  default 0 (pending_stake s !! a).

Definition is_settled (s : state) (a : Z) : bool :=
  bool_decide (distribution_id s !! a = Some (current_distribution_id s)).

Definition settled_stake_sum (s : state) : Q :=
  sum_over (stake_of s) (filter (λ a, is_settled s a = true) (accounts s)).

(** The active stake an account holds once it is settled: a stale
    account's pending stake has been active since the epoch after its
    stamp. *)
Definition effective_stake (s : state) (a : Z) : Q :=
  stake_of s a + (if is_settled s a then 0 else pending_of s a).
(** The stake of an account that still waits for the next epoch. *)
Definition waiting_stake (s : state) (a : Z) : Q :=
  if is_settled s a then pending_of s a else 0.

Definition effective_stake_sum (s : state) : Q :=
  sum_over (effective_stake s) (accounts s).
Definition waiting_stake_sum (s : state) : Q :=
  sum_over (waiting_stake s) (accounts s).

(** The record settlement would leave: a stale account's pending stake
    becomes active, weighed at the rate recorded for its stamp. *)
Definition rate_at (s : state) (d : nat) : Q :=
  default 0 (reward_per_token_history s !! d).
Definition settled_stake (s : state) (S P : Q) (d : nat) : Q :=
  if (d =? current_distribution_id s)%nat then S else S + P.
Definition settled_tally (s : state) (T P : Q) (d : nat) : Q :=
  if (d =? current_distribution_id s)%nat then T else T + P * rate_at s d.
Definition settled_pending (s : state) (P : Q) (d : nat) : Q :=
  if (d =? current_distribution_id s)%nat then P else 0.

(** What holds of an account with stake [S], tally [T], pending stake
    [P] and stamp [d] in every reachable state. *)
Record account_ok (s : state) (S T P : Q) (d : nat) : Prop := {
  ok_epoch : (d ≤ current_distribution_id s)%nat;
  ok_stake : 0 <= S;
  ok_pending : 0 <= P;
  ok_history :
    d ≠ current_distribution_id s →
    is_Some (reward_per_token_history s !! d);
  ok_reward :
    0 <= settled_stake s S P d * reward_per_token s - settled_tally s T P d
}.

Record wf (s : state) : Prop := {
  wf_stake : dom (stake s) = {[ 1%Z; 2%Z ]};
  wf_reward_tally : dom (reward_tally s) = {[ 1%Z; 2%Z ]};
  wf_pending_stake : dom (pending_stake s) = {[ 1%Z; 2%Z ]};
  wf_distribution_id : dom (distribution_id s) = {[ 1%Z; 2%Z ]};
  wf_history : ∀ i,
    is_Some (reward_per_token_history s !! i) ↔
    (i < current_distribution_id s)%nat;
  wf_history_le : ∀ i h,
    reward_per_token_history s !! i = Some h → h <= reward_per_token s;
  wf_total_stake : effective_stake_sum s == total_stake s;
  wf_total_pending_stake : waiting_stake_sum s == total_pending_stake s;
  wf_accounts : ∀ a S T P d,
    stake s !! a = Some S → reward_tally s !! a = Some T →
    pending_stake s !! a = Some P → distribution_id s !! a = Some d →
    account_ok s S T P d
}.

(** *** Quantities of the reward accounting *)

Definition tally_of (s : state) (a : Z) : Q :=
  default 0 (reward_tally s !! a).
Definition stamp_of (s : state) (a : Z) : nat :=
  default 0%nat (distribution_id s !! a).

(** The tally an account has once it is settled. *)
Definition effective_tally (s : state) (a : Z) : Q :=
  tally_of s a +
  (if is_settled s a then 0 else pending_of s a * rate_at s (stamp_of s a)).

(** What the accumulator has credited to an account and the account has
    not been paid. *)
Definition unclaimed (s : state) (a : Z) : Q :=
  effective_stake s a * reward_per_token s - effective_tally s a.

(** The reward the ledger holds for its accounts. *)
Definition outstanding (s : state) : Q :=
  sum_over (unclaimed s) (accounts s).

(** What [compute_reward] gives for an address; nothing where it raises. *)
Definition claimable (s : state) (a : Z) : Q :=
  match fst (compute_reward a s) with Return r => r | Raise _ => 0 end.

(** The reward a call puts in: what [distribute] is given when it finds
    active stake to spread it over. *)
Definition reward_in (c : call) (s : state) : Q :=
  match c with
  | Distribute reward => if py_gt (total_stake s) 0 then reward else 0
  | _ => 0
  end.

(** Reward put in minus reward paid out along a run of calls. *)
Fixpoint net_inflow (calls : list call) (s : state) : Q :=
  match calls with
  | [] => 0
  | c :: calls' =>
      reward_in c s - reward_out c (fst (perform c s))
      + net_inflow calls' (snd (perform c s))
  end.

(** *** The calls, case by case *)

Definition record_at (s : state) (a : Z) (S T P : Q) (d : nat) : Prop :=
  stake s !! a = Some S ∧ reward_tally s !! a = Some T ∧
  pending_stake s !! a = Some P ∧ distribution_id s !! a = Some d.

(** The record of one account rewritten and stamped with the current
    epoch, together with the two totals. *)
Definition with_record (s : state) (a : Z) (total pending S T P : Q)
    : state :=
  State total pending (reward_per_token s) (reward_per_token_history s)
    (current_distribution_id s) (<[a:=S]> (stake s))
    (<[a:=T]> (reward_tally s)) (<[a:=P]> (pending_stake s))
    (<[a:=current_distribution_id s]> (distribution_id s)).

Inductive call_view (s : state) : call → outcome (option Q) → state → Prop :=
| view_distribute reward :
    let rpt' := if py_gt (total_stake s) 0
                then reward_per_token s + reward / total_stake s
                else reward_per_token s in
    call_view s (Distribute reward) (Return None)
      (State (total_stake s + total_pending_stake s) 0 rpt'
         (<[current_distribution_id s:=rpt']> (reward_per_token_history s))
         (current_distribution_id s + 1) (stake s) (reward_tally s)
         (pending_stake s) (distribution_id s))
| view_unknown c a :
    call_address c = Some a → stake s !! a = None →
    call_view s c (Raise KeyError) s
| view_deposit_stake a amount S T P d :
    record_at s a S T P d →
    call_view s (DepositStake a amount) (Return None)
      (with_record s a (total_stake s) (total_pending_stake s + amount)
         (settled_stake s S P d) (settled_tally s T P d)
         (settled_pending s P d + amount))
| view_withdraw_stake_insufficient a amount S T P d :
    record_at s a S T P d → S + P < amount →
    call_view s (WithdrawStake a amount) (Raise InsufficientStake) s
| view_withdraw_stake a amount S T P d :
    record_at s a S T P d → amount <= S + P →
    let pending_amount := py_min amount (settled_pending s P d) in
    let computed_amount := amount - pending_amount in
    call_view s (WithdrawStake a amount) (Return None)
      (with_record s a (total_stake s - computed_amount)
         (total_pending_stake s - pending_amount)
         (settled_stake s S P d - computed_amount)
         (settled_tally s T P d - reward_per_token s * computed_amount)
         (settled_pending s P d - pending_amount))
| view_compute_reward a S T P d :
    record_at s a S T P d →
    call_view s (ComputeReward a)
      (Return (Some (settled_stake s S P d * reward_per_token s
                     - settled_tally s T P d))) s
| view_withdraw_reward a S T P d :
    record_at s a S T P d →
    call_view s (WithdrawReward a)
      (Return (Some (settled_stake s S P d * reward_per_token s
                     - settled_tally s T P d)))
      (with_record s a (total_stake s) (total_pending_stake s)
         (settled_stake s S P d)
         (settled_stake s S P d * reward_per_token s)
         (settled_pending s P d)).

End Gap.


(** * Facts *)

(** ** Python numbers *)

Lemma py_lt_spec a b : reflect (a < b) (py_lt a b).
Proof.
  unfold py_lt. destruct (Qle_bool b a) eqn:E; constructor.
  - apply Qle_bool_iff in E. lra.
  - apply Qnot_le_lt. intros H.
    apply Qle_bool_iff in H. congruence.
Qed.

Lemma py_gt_spec a b : reflect (b < a) (py_gt a b).
Proof. apply py_lt_spec. Qed.

Lemma Qeq_bool_spec a b : reflect (a == b) (Qeq_bool a b).
Proof.
  destruct (Qeq_bool a b) eqn:E; constructor.
  - by apply Qeq_bool_iff.
  - intros H. apply Qeq_bool_iff in H. congruence.
Qed.

Lemma py_max_cases a b :
  (a < b ∧ py_max a b = b) ∨ (b <= a ∧ py_max a b = a).
Proof.
  unfold py_max. destruct (py_gt_spec b a); [left | right]; split; auto.
  lra.
Qed.

Lemma py_min_cases a b :
  (b < a ∧ py_min a b = b) ∨ (a <= b ∧ py_min a b = a).
Proof.
  unfold py_min. destruct (py_lt_spec b a); [left | right]; split; auto.
  lra.
Qed.

Lemma pos_of_nonneg_nonzero q : 0 <= q → ¬ q == 0 → 0 < q.
Proof.
  intros Hq Hne. destruct (Qlt_le_dec 0 q) as [|Hle]; [done|].
  exfalso. apply Hne. lra.
Qed.

Lemma Qdiv_nonneg a b : 0 <= a → 0 < b → 0 <= a / b.
Proof. intros Ha Hb. apply Qle_shift_div_l; [done | lra]. Qed.

(** ** Sums over accounts *)

Lemma sum_over_ext f g l :
  (∀ a, a ∈ l → f a == g a) → sum_over f l == sum_over g l.
Proof.
  induction l as [|x l IH]; intros Hfg; simpl; [reflexivity|].
  rewrite (Hfg x), IH; [reflexivity | | left].
  intros a Ha. apply Hfg. by right.
Qed.

Lemma sum_over_update f g l a0 :
  NoDup l → a0 ∈ l → (∀ a, a ∈ l → a ≠ a0 → g a == f a) →
  sum_over g l == sum_over f l - f a0 + g a0.
Proof.
  induction l as [|x l IH]; intros Hnd Hin Hfg; [by apply elem_of_nil in Hin|].
  apply NoDup_cons in Hnd as [Hx Hnd]. simpl.
  destruct (decide (x = a0)) as [->|Hne].
  - rewrite (sum_over_ext g f l); [lra|].
    intros a Ha. apply Hfg; [by right | congruence].
  - rewrite IH; auto.
    + rewrite (Hfg x); [lra | left | done].
    + apply elem_of_cons in Hin as [?|?]; congruence.
    + intros a Ha. apply Hfg. by right.
Qed.

Lemma sum_over_plus f g l :
  sum_over (λ a, f a + g a) l == sum_over f l + sum_over g l.
Proof. induction l as [|x l IH]; simpl; [lra | rewrite IH; lra]. Qed.

Lemma sum_over_zero f l : (∀ a, a ∈ l → f a == 0) → sum_over f l == 0.
Proof.
  induction l as [|x l IH]; intros Hf; simpl; [reflexivity|].
  rewrite (Hf x), IH; [lra | | left]. intros a Ha. apply Hf. by right.
Qed.

Lemma sum_over_nonneg f l : (∀ a, a ∈ l → 0 <= f a) → 0 <= sum_over f l.
Proof.
  induction l as [|x l IH]; intros Hf; simpl; [lra|].
  assert (0 <= f x) by (apply Hf; left).
  assert (0 <= sum_over f l) by (apply IH; intros a Ha; apply Hf; by right).
  lra.
Qed.

(** ** Policy A *)

Module DeferredFacts.
Import Deferred.

Ltac fields :=
  cbn [total_stake reward_per_token last_rate lost_reward
       current_distribution_id stake reward_tally rewarded_stake
       distribution_id negb fst snd].

Ltac setters :=
  unfold set_total_stake, set_reward_per_token, set_last_rate,
    set_lost_reward, set_current_distribution_id, set_stake,
    set_reward_tally, set_rewarded_stake, set_distribution_id.

(** Evaluate a method body as far as the known lookups allow. *)
Ltac run :=
  setters; unfold_method; fields;
  repeat first
    [ rewrite lookup_insert_eq
    | match goal with
      | H : _ !! _ = Some _ |- _ => rewrite H
      | H : _ !! _ = None |- _ => rewrite H
      end
    | progress fields ].

(** *** What each method does on an account that has a record *)

Section KnownAccount.
Context (s : state) (a : Z) (S T R : Q) (d : nat).
Context (HS : stake s !! a = Some S) (HT : reward_tally s !! a = Some T).
Context (HR : rewarded_stake s !! a = Some R).
Context (Hd : distribution_id s !! a = Some d).

Let cur := current_distribution_id s.
Let rpt := reward_per_token s.
Let lr := last_rate s.
Let R1 := previous_stake s S R d.

Lemma update_rewarded_stake_known :
  __update_rewarded_stake a s =
  (Return tt,
   State (total_stake s) rpt lr (lost_reward s) cur (stake s)
     (reward_tally s) (<[a:=R1]> (rewarded_stake s))
     (<[a:=cur]> (distribution_id s))).
Proof.
  subst cur rpt lr R1. unfold __update_rewarded_stake, previous_stake. run.
  destruct (d =? current_distribution_id s)%nat eqn:E; run; [|done].
  apply Nat.eqb_eq in E. subst d.
  rewrite !insert_id by done. by destruct s.
Qed.

Lemma deferred_deposit_stake_known amount :
  deposit_stake a amount s =
  (Return tt,
   State (total_stake s + amount) rpt lr (lost_reward s) cur
     (<[a:=S + amount]> (stake s))
     (<[a:=T + rpt * amount]> (reward_tally s))
     (<[a:=R1]> (rewarded_stake s))
     (<[a:=cur]> (distribution_id s))).
Proof.
  unfold deposit_stake. unfold_method.
  rewrite update_rewarded_stake_known. by run.
Qed.

Lemma deferred_withdraw_stake_insufficient amount :
  S < amount → withdraw_stake a amount s = (Raise InsufficientStake, s).
Proof.
  intros Hlt. unfold withdraw_stake. run.
  by destruct (py_gt_spec amount S).
Qed.

Lemma deferred_withdraw_stake_known amount :
  amount <= S →
  let rewarded_amount := amount - py_min amount (py_max (S - R1) 0) in
  withdraw_stake a amount s =
  (Return tt,
   State (total_stake s - amount) rpt lr
     (lost_reward s + rewarded_amount * lr) cur
     (<[a:=S - amount]> (stake s))
     (<[a:=T - (rpt * amount - rewarded_amount * lr)]> (reward_tally s))
     (<[a:=R1 - rewarded_amount]> (rewarded_stake s))
     (<[a:=cur]> (distribution_id s))).
Proof.
  intros Hle ra. unfold withdraw_stake. run.
  destruct (py_gt_spec amount S); [lra|].
  unfold_method. rewrite update_rewarded_stake_known. run.
  by rewrite insert_insert_eq.
Qed.

Lemma deferred_compute_reward_known :
  compute_reward a s = (Return (S * rpt - T - R1 * lr), s).
Proof.
  subst R1. unfold compute_reward, previous_stake. run.
  by destruct (d =? current_distribution_id s)%nat; run.
Qed.

Lemma deferred_withdraw_reward_known :
  let reward := S * rpt - T - R1 * lr in
  withdraw_reward a s =
  (Return reward,
   State (total_stake s) rpt lr (lost_reward s) cur (stake s)
     (<[a:=T + reward]> (reward_tally s)) (rewarded_stake s)
     (distribution_id s)).
Proof.
  intros reward. unfold withdraw_reward. unfold_method.
  rewrite deferred_compute_reward_known. by run.
Qed.

End KnownAccount.

(** *** What each method does on an address without a record *)

Section UnknownAccount.
Context (s : state) (a : Z).
Context (HS : stake s !! a = None) (HR : rewarded_stake s !! a = None).
Context (Hd : distribution_id s !! a = None).

Lemma update_rewarded_stake_unknown :
  __update_rewarded_stake a s = (Raise KeyError, s).
Proof. unfold __update_rewarded_stake. by run. Qed.

Lemma deferred_deposit_stake_unknown amount :
  deposit_stake a amount s = (Raise KeyError, s).
Proof.
  unfold deposit_stake. unfold_method.
  by rewrite update_rewarded_stake_unknown.
Qed.

Lemma deferred_withdraw_stake_unknown amount :
  withdraw_stake a amount s = (Raise KeyError, s).
Proof. unfold withdraw_stake. by run. Qed.

Lemma deferred_compute_reward_unknown : compute_reward a s = (Raise KeyError, s).
Proof. unfold compute_reward. by run. Qed.

Lemma deferred_withdraw_reward_unknown : withdraw_reward a s = (Raise KeyError, s).
Proof.
  unfold withdraw_reward. unfold_method. by rewrite deferred_compute_reward_unknown.
Qed.

End UnknownAccount.

(** *** [distribute] *)

Lemma distribute_empty reward s :
  total_stake s == 0 → distribute reward s = (Raise EmptyPool, s).
Proof.
  intros H0. unfold distribute. run. by destruct (Qeq_bool_spec (total_stake s) 0).
Qed.

Lemma distribute_staked reward s :
  ¬ total_stake s == 0 →
  let rate := (reward + lost_reward s) / total_stake s in
  distribute reward s =
  (Return tt,
   State (total_stake s) (reward_per_token s + rate) rate 0
     (current_distribution_id s + 1) (stake s) (reward_tally s)
     (rewarded_stake s) (distribution_id s)).
Proof.
  intros H0 rate. unfold distribute. run.
  by destruct (Qeq_bool_spec (total_stake s) 0).
Qed.

(** *** Well-formedness of reachable states *)

Lemma deferred_wf_known s a :
  wf s → a ∈ ({[ 1%Z; 2%Z ]} : gset Z) →
  ∃ S T R d, stake s !! a = Some S ∧ reward_tally s !! a = Some T ∧
             rewarded_stake s !! a = Some R ∧ distribution_id s !! a = Some d.
Proof.
  intros [H1 H2 H3 H4 _ _ _ _] Ha.
  assert (is_Some (stake s !! a)) as [S ?] by (apply elem_of_dom; by rewrite H1).
  assert (is_Some (reward_tally s !! a)) as [T ?]
    by (apply elem_of_dom; by rewrite H2).
  assert (is_Some (rewarded_stake s !! a)) as [R ?]
    by (apply elem_of_dom; by rewrite H3).
  assert (is_Some (distribution_id s !! a)) as [d ?]
    by (apply elem_of_dom; by rewrite H4).
  by exists S, T, R, d.
Qed.

Lemma deferred_wf_unknown s a :
  wf s → a ∉ ({[ 1%Z; 2%Z ]} : gset Z) →
  stake s !! a = None ∧ reward_tally s !! a = None ∧
  rewarded_stake s !! a = None ∧ distribution_id s !! a = None.
Proof.
  intros [H1 H2 H3 H4 _ _ _ _] Ha.
  repeat split; apply not_elem_of_dom; congruence.
Qed.

Lemma deferred_wf_accounts_elem s a :
  wf s → a ∈ accounts s ↔ a ∈ ({[ 1%Z; 2%Z ]} : gset Z).
Proof. intros Hwf. unfold accounts. by rewrite elem_of_elements, (wf_stake s). Qed.

Lemma wf_stake_of_nonneg s a : wf s → 0 <= stake_of s a.
Proof.
  intros Hwf. unfold stake_of.
  destruct (decide (a ∈ ({[ 1%Z; 2%Z ]} : gset Z))) as [Ha|Ha].
  - destruct (deferred_wf_known s a Hwf Ha) as (S & T & R & d & HS & HT & HR & Hd).
    rewrite HS. simpl. by destruct (wf_accounts s Hwf a S T R d).
  - destruct (deferred_wf_unknown s a Hwf Ha) as (-> & _). simpl. lra.
Qed.

Lemma deferred_wf_total_stake_nonneg s : wf s → 0 <= total_stake s.
Proof.
  intros Hwf. rewrite <- (wf_total_stake s Hwf).
  apply sum_over_nonneg. intros a _. by apply wf_stake_of_nonneg.
Qed.

Lemma previous_stake_nonneg s S T R d :
  account_ok s S T R d → 0 <= previous_stake s S R d.
Proof.
  intros [_ HS HR _]. unfold previous_stake.
  destruct (Nat.eqb_spec d (current_distribution_id s)); [by apply HR | done].
Qed.

Lemma deferred_wf_init : wf init.
Proof.
  split; simpl.
  1-4: by rewrite dom_insert_L, dom_singleton_L.
  1-2: lra.
  - unfold stake_sum. apply sum_over_zero. intros a _.
    unfold stake_of. simpl. 
    destruct (decide (a = 1%Z)) as [->|?]; [by simplify_map_eq|].
    destruct (decide (a = 2%Z)) as [->|?]; by simplify_map_eq.
  - intros a S T R d HS HT HR Hd.
    assert (S = 0 ∧ T = 0 ∧ R = 0 ∧ d = 0%nat) as (-> & -> & -> & ->).
    { destruct (decide (a = 1%Z)) as [->|?]; [by simplify_map_eq|].
      destruct (decide (a = 2%Z)) as [->|?]; by simplify_map_eq. }
    split; unfold previous_stake; simpl; intros; try split; lra || lia.
Qed.

Lemma deferred_wf_distribute reward s :
  wf s → 0 <= reward → wf (snd (distribute reward s)).
Proof.
  intros Hwf Hreward. destruct (Qeq_dec (total_stake s) 0) as [H0|H0].
  { by rewrite distribute_empty. }
  rewrite distribute_staked by done. simpl.
  assert (0 < total_stake s) as Hpos
    by (apply pos_of_nonneg_nonzero; [by apply deferred_wf_total_stake_nonneg | done]).
  assert (0 <= (reward + lost_reward s) / total_stake s) as Hrate.
  { apply Qdiv_nonneg; [|done]. pose proof (wf_lost_reward s Hwf). lra. }
  pose proof (wf_last_rate s Hwf) as Hlr.
  destruct Hwf as [H1 H2 H3 H4 _ _ Hsum Hacc].
  split; simpl; try done; try lra.
  intros a S T R d HS HT HR Hd.
  pose proof (Hacc a S T R d HS HT HR Hd) as Hok.
  pose proof (previous_stake_nonneg _ _ _ _ _ Hok) as Hprev.
  destruct Hok as [He Hs Hrw Hrd].
  split; simpl; [lia | done | lia |].
  unfold previous_stake. simpl.
  destruct (Nat.eqb_spec d (current_distribution_id s + 1)); [lia|].
  assert (0 <= previous_stake s S R d * last_rate s)
    by (by apply Qmult_le_0_compat).
  lra.
Qed.

(** Rewriting the record of one account, and the totals with it, keeps
    the state well-formed when the new record is sound against the
    unchanged accumulator. *)
Lemma deferred_wf_update_account s a S T R d total' lost' S' T' R' d' :
  wf s →
  stake s !! a = Some S → reward_tally s !! a = Some T →
  rewarded_stake s !! a = Some R → distribution_id s !! a = Some d →
  0 <= lost' → total' == total_stake s - S + S' →
  account_ok s S' T' R' d' →
  wf (State total' (reward_per_token s) (last_rate s) lost'
        (current_distribution_id s) (<[a:=S']> (stake s))
        (<[a:=T']> (reward_tally s)) (<[a:=R']> (rewarded_stake s))
        (<[a:=d']> (distribution_id s))).
Proof.
  intros Hwf HS HT HR Hd Hlost Htotal Hok.
  pose proof (wf_last_rate s Hwf) as Hlr.
  destruct Hwf as [H1 H2 H3 H4 _ _ Hsum Hacc].
  split; fields; try done.
  1-4: by rewrite dom_insert_lookup_L.
  - unfold stake_sum, accounts in *. fields.
    rewrite dom_insert_lookup_L by done.
    etransitivity; [apply (sum_over_update (stake_of s) _ _ a)|].
    + apply NoDup_elements.
    + apply elem_of_elements, elem_of_dom. eauto.
    + intros a' _ Hne. unfold stake_of. fields.
      by rewrite lookup_insert_ne.
    + assert (stake_of s a = S) as -> by (unfold stake_of; by rewrite HS).
      unfold stake_of at 2. fields. rewrite lookup_insert_eq. simpl. lra.
  - intros a' S0 T0 R0 d0. destruct (decide (a' = a)) as [->|Hne].
    + rewrite !lookup_insert_eq. intros [= <-] [= <-] [= <-] [= <-].
      by destruct Hok.
    + rewrite !lookup_insert_ne by done. intros HS0 HT0 HR0 Hd0.
      by destruct (Hacc a' S0 T0 R0 d0 HS0 HT0 HR0 Hd0).
Qed.

Lemma previous_stake_le s S T R d :
  account_ok s S T R d → previous_stake s S R d <= S.
Proof.
  intros [_ _ HR _]. unfold previous_stake.
  destruct (Nat.eqb_spec d (current_distribution_id s)); [by apply HR | lra].
Qed.

Lemma previous_stake_current s S R :
  previous_stake s S R (current_distribution_id s) = R.
Proof. unfold previous_stake. by rewrite Nat.eqb_refl. Qed.

Lemma deferred_wf_deposit_stake a amount s :
  wf s → 0 <= amount → wf (snd (deposit_stake a amount s)).
Proof.
  intros Hwf Hamount.
  destruct (decide (a ∈ ({[ 1%Z; 2%Z ]} : gset Z))) as [Ha|Ha].
  - destruct (deferred_wf_known s a Hwf Ha) as (S & T & R & d & HS & HT & HR & Hd).
    rewrite (deferred_deposit_stake_known s a S T R d) by done. simpl.
    pose proof (wf_accounts s Hwf a S T R d HS HT HR Hd) as Hok.
    pose proof (previous_stake_nonneg _ _ _ _ _ Hok).
    pose proof (previous_stake_le _ _ _ _ _ Hok).
    apply (deferred_wf_update_account s a S T R d); try done.
    + by apply wf_lost_reward.
    + lra.
    + destruct Hok as [He Hs Hrw Hrd].
      split; [lia | lra | intros _; split; lra |].
      rewrite previous_stake_current. lra.
  - destruct (deferred_wf_unknown s a Hwf Ha) as (HS & HT & HR & Hd).
    by rewrite deferred_deposit_stake_unknown.
Qed.

Lemma deferred_wf_withdraw_stake a amount s :
  wf s → 0 <= amount → wf (snd (withdraw_stake a amount s)).
Proof.
  intros Hwf Hamount.
  destruct (decide (a ∈ ({[ 1%Z; 2%Z ]} : gset Z))) as [Ha|Ha].
  - destruct (deferred_wf_known s a Hwf Ha) as (S & T & R & d & HS & HT & HR & Hd).
    destruct (Qlt_le_dec S amount) as [Hlt|Hle].
    { by rewrite (deferred_withdraw_stake_insufficient s a S). }
    rewrite (deferred_withdraw_stake_known s a S T R d) by done. simpl.
    pose proof (wf_accounts s Hwf a S T R d HS HT HR Hd) as Hok.
    pose proof (previous_stake_nonneg _ _ _ _ _ Hok) as Hp0.
    pose proof (previous_stake_le _ _ _ _ _ Hok) as HpS.
    pose proof (wf_last_rate s Hwf) as Hlr.
    pose proof (wf_lost_reward s Hwf) as Hlost.
    set (R1 := previous_stake s S R d) in *.
    set (ra := amount - py_min amount (py_max (S - R1) 0)).
    assert (0 <= ra ∧ ra <= R1 ∧ R1 - ra <= S - amount) as (Hra0 & HraR & HraS).
    { subst ra.
      destruct (py_max_cases (S - R1) 0) as [[? ->]|[? ->]];
      [destruct (py_min_cases amount 0) as [[? ->]|[? ->]]
      |destruct (py_min_cases amount (S - R1)) as [[? ->]|[? ->]]];
      repeat split; lra. }
    assert (0 <= ra * last_rate s) by (by apply Qmult_le_0_compat).
    apply (deferred_wf_update_account s a S T R d); try done.
    + lra.
    + lra.
    + destruct Hok as [He Hs Hrw Hrd]. fold R1 in Hrd.
      split; [lia | lra | intros _; split; lra |].
      rewrite previous_stake_current. lra.
  - destruct (deferred_wf_unknown s a Hwf Ha) as (HS & HT & HR & Hd).
    by rewrite deferred_withdraw_stake_unknown.
Qed.

Lemma deferred_wf_withdraw_reward a s : wf s → wf (snd (withdraw_reward a s)).
Proof.
  intros Hwf.
  destruct (decide (a ∈ ({[ 1%Z; 2%Z ]} : gset Z))) as [Ha|Ha].
  - destruct (deferred_wf_known s a Hwf Ha) as (S & T & R & d & HS & HT & HR & Hd).
    rewrite (deferred_withdraw_reward_known s a S T R d) by done. simpl.
    pose proof (wf_accounts s Hwf a S T R d HS HT HR Hd) as Hok.
    pose proof (deferred_wf_update_account s a S T R d (total_stake s) (lost_reward s)
      S (T + (S * reward_per_token s - T
              - previous_stake s S R d * last_rate s)) R d Hwf HS HT HR Hd)
      as Hupd.
    rewrite (insert_id (stake s)), (insert_id (rewarded_stake s)),
      (insert_id (distribution_id s)) in Hupd by done.
    apply Hupd.
    + by apply wf_lost_reward.
    + lra.
    + destruct Hok as [He Hs Hrw Hrd]. split; [done..|]. lra.
  - destruct (deferred_wf_unknown s a Hwf Ha) as (HS & HT & HR & Hd).
    by rewrite deferred_withdraw_reward_unknown.
Qed.

Lemma deferred_compute_reward_pure a s : snd (compute_reward a s) = s.
Proof.
  unfold compute_reward. run.
  repeat (match goal with |- context [match ?m !! ?k with _ => _ end] =>
            destruct (m !! k) end; fields; try done).
  all: match goal with |- context [(?x =? ?y)%nat] => destruct (x =? y)%nat end;
    fields; try done.
  all: repeat (match goal with |- context [match ?m !! ?k with _ => _ end] =>
            destruct (m !! k) end; fields; try done).
Qed.

Lemma deferred_wf_perform c s : wf s → nonneg_call c → wf (snd (perform c s)).
Proof.
  intros Hwf Hc. destruct c as [reward|a amount|a amount|a|a]; simpl in Hc.
  - pose proof (deferred_wf_distribute reward s Hwf Hc) as H.
    unfold perform. unfold_method. by destruct (distribute reward s) as [[]].
  - pose proof (deferred_wf_deposit_stake a amount s Hwf Hc) as H.
    unfold perform. unfold_method. by destruct (deposit_stake a amount s) as [[]].
  - pose proof (deferred_wf_withdraw_stake a amount s Hwf Hc) as H.
    unfold perform. unfold_method. by destruct (withdraw_stake a amount s) as [[]].
  - pose proof (deferred_compute_reward_pure a s) as H.
    unfold perform. unfold_method.
    destruct (compute_reward a s) as [[]]; simpl in *; by subst.
  - pose proof (deferred_wf_withdraw_reward a s Hwf) as H.
    unfold perform. unfold_method. by destruct (withdraw_reward a s) as [[]].
Qed.

Lemma deferred_reachable_wf s : reachable s → wf s.
Proof.
  induction 1 as [|c s _ IH Hc]; [apply deferred_wf_init | by apply deferred_wf_perform].
Qed.

End DeferredFacts.

(** ** Policy B *)

Module GapFacts.
Import Gap.

Ltac fields :=
  cbn [total_stake total_pending_stake reward_per_token
       reward_per_token_history current_distribution_id stake reward_tally
       pending_stake distribution_id negb fst snd].

Ltac setters :=
  unfold set_total_stake, set_total_pending_stake, set_reward_per_token,
    set_reward_per_token_history, set_current_distribution_id, set_stake,
    set_reward_tally, set_pending_stake, set_distribution_id.

(** Evaluate a method body as far as the known lookups allow. *)
Ltac run :=
  setters; unfold_method; fields;
  repeat first
    [ rewrite lookup_insert_eq
    | match goal with
      | H : _ !! _ = Some _ |- _ => rewrite H
      | H : _ !! _ = None |- _ => rewrite H
      end
    | progress fields ].

(** *** What each method does on an account that has a record *)

Section KnownAccount.
Context (s : state) (a : Z) (S T P : Q) (d : nat).
Context (HS : stake s !! a = Some S) (HT : reward_tally s !! a = Some T).
Context (HP : pending_stake s !! a = Some P).
Context (Hd : distribution_id s !! a = Some d).
Context (Hh : d ≠ current_distribution_id s →
              is_Some (reward_per_token_history s !! d)).

Let cur := current_distribution_id s.
Let rpt := reward_per_token s.
Let S1 := settled_stake s S P d.
Let T1 := settled_tally s T P d.
Let P1 := settled_pending s P d.

Lemma update_state_known :
  __update_state a s =
  (Return tt,
   State (total_stake s) (total_pending_stake s) rpt
     (reward_per_token_history s) cur (<[a:=S1]> (stake s))
     (<[a:=T1]> (reward_tally s)) (<[a:=P1]> (pending_stake s))
     (<[a:=cur]> (distribution_id s))).
Proof.
  subst cur rpt S1 T1 P1.
  unfold __update_state, settled_stake, settled_tally, settled_pending,
    rate_at.
  run. destruct (Nat.eqb_spec d (current_distribution_id s)) as [->|Hne]; run.
  - rewrite !insert_id by done. by destruct s.
  - destruct (Hh Hne) as [h Hhist]. by run.
Qed.

Lemma gap_compute_reward_known :
  compute_reward a s = (Return (S1 * rpt - T1), s).
Proof.
  subst cur rpt S1 T1 P1.
  unfold compute_reward, settled_stake, settled_tally, rate_at.
  run. destruct (Nat.eqb_spec d (current_distribution_id s)) as [->|Hne]; run.
  - done.
  - destruct (Hh Hne) as [h Hhist]. by run.
Qed.

Lemma gap_deposit_stake_known amount :
  deposit_stake a amount s =
  (Return tt,
   State (total_stake s) (total_pending_stake s + amount) rpt
     (reward_per_token_history s) cur (<[a:=S1]> (stake s))
     (<[a:=T1]> (reward_tally s)) (<[a:=P1 + amount]> (pending_stake s))
     (<[a:=cur]> (distribution_id s))).
Proof.
  unfold deposit_stake. unfold_method. rewrite update_state_known. run.
  by rewrite insert_insert_eq.
Qed.

Lemma gap_withdraw_stake_insufficient amount :
  S + P < amount → withdraw_stake a amount s = (Raise InsufficientStake, s).
Proof.
  intros Hlt. unfold withdraw_stake. run.
  by destruct (py_gt_spec amount (S + P)).
Qed.

Lemma gap_withdraw_stake_known amount :
  amount <= S + P →
  let pending_amount := py_min amount P1 in
  let computed_amount := amount - pending_amount in
  withdraw_stake a amount s =
  (Return tt,
   State (total_stake s - computed_amount)
     (total_pending_stake s - pending_amount) rpt
     (reward_per_token_history s) cur
     (<[a:=S1 - computed_amount]> (stake s))
     (<[a:=T1 - rpt * computed_amount]> (reward_tally s))
     (<[a:=P1 - pending_amount]> (pending_stake s))
     (<[a:=cur]> (distribution_id s))).
Proof.
  intros Hle pa ca. unfold withdraw_stake. run.
  destruct (py_gt_spec amount (S + P)); [lra|].
  unfold_method. rewrite update_state_known. run.
  by rewrite !insert_insert_eq.
Qed.

Lemma gap_withdraw_reward_known :
  withdraw_reward a s =
  (Return (S1 * rpt - T1),
   State (total_stake s) (total_pending_stake s) rpt
     (reward_per_token_history s) cur (<[a:=S1]> (stake s))
     (<[a:=S1 * rpt]> (reward_tally s)) (<[a:=P1]> (pending_stake s))
     (<[a:=cur]> (distribution_id s))).
Proof.
  unfold withdraw_reward. unfold_method. rewrite update_state_known.
  unfold compute_reward. run. rewrite Nat.eqb_refl. run.
  by rewrite insert_insert_eq.
Qed.

End KnownAccount.

(** *** What each method does on an address without a record *)

Section UnknownAccount.
Context (s : state) (a : Z).
Context (HS : stake s !! a = None) (Hd : distribution_id s !! a = None).

Lemma update_state_unknown : __update_state a s = (Raise KeyError, s).
Proof. unfold __update_state. by run. Qed.

Lemma gap_deposit_stake_unknown amount :
  deposit_stake a amount s = (Raise KeyError, s).
Proof.
  unfold deposit_stake. unfold_method. by rewrite update_state_unknown.
Qed.

Lemma gap_withdraw_stake_unknown amount :
  withdraw_stake a amount s = (Raise KeyError, s).
Proof. unfold withdraw_stake. by run. Qed.

Lemma gap_compute_reward_unknown : compute_reward a s = (Raise KeyError, s).
Proof. unfold compute_reward. by run. Qed.

Lemma gap_withdraw_reward_unknown : withdraw_reward a s = (Raise KeyError, s).
Proof.
  unfold withdraw_reward. unfold_method. by rewrite update_state_unknown.
Qed.

End UnknownAccount.

(** *** [distribute] *)

Lemma distribute_eq reward s :
  let rpt' := if py_gt (total_stake s) 0
              then reward_per_token s + reward / total_stake s
              else reward_per_token s in
  distribute reward s =
  (Return tt,
   State (total_stake s + total_pending_stake s) 0 rpt'
     (<[current_distribution_id s:=rpt']> (reward_per_token_history s))
     (current_distribution_id s + 1) (stake s) (reward_tally s)
     (pending_stake s) (distribution_id s)).
Proof.
  intros rpt'. subst rpt'. unfold distribute. run.
  by destruct (py_gt (total_stake s) 0); run.
Qed.

(** *** Well-formedness of reachable states *)

Lemma gap_wf_known s a :
  wf s → a ∈ ({[ 1%Z; 2%Z ]} : gset Z) →
  ∃ S T P d, stake s !! a = Some S ∧ reward_tally s !! a = Some T ∧
             pending_stake s !! a = Some P ∧ distribution_id s !! a = Some d.
Proof.
  intros [H1 H2 H3 H4 _ _ _ _ _] Ha.
  assert (is_Some (stake s !! a)) as [S ?] by (apply elem_of_dom; by rewrite H1).
  assert (is_Some (reward_tally s !! a)) as [T ?]
    by (apply elem_of_dom; by rewrite H2).
  assert (is_Some (pending_stake s !! a)) as [P ?]
    by (apply elem_of_dom; by rewrite H3).
  assert (is_Some (distribution_id s !! a)) as [d ?]
    by (apply elem_of_dom; by rewrite H4).
  by exists S, T, P, d.
Qed.

Lemma gap_wf_unknown s a :
  wf s → a ∉ ({[ 1%Z; 2%Z ]} : gset Z) →
  stake s !! a = None ∧ reward_tally s !! a = None ∧
  pending_stake s !! a = None ∧ distribution_id s !! a = None.
Proof.
  intros [H1 H2 H3 H4 _ _ _ _ _] Ha.
  repeat split; apply not_elem_of_dom; congruence.
Qed.

Lemma gap_wf_accounts_elem s a :
  wf s → a ∈ accounts s ↔ a ∈ ({[ 1%Z; 2%Z ]} : gset Z).
Proof. intros Hwf. unfold accounts. by rewrite elem_of_elements, (wf_stake s). Qed.

Lemma is_settled_eqb s a d :
  distribution_id s !! a = Some d →
  is_settled s a = (d =? current_distribution_id s)%nat.
Proof.
  intros Hd. unfold is_settled. rewrite Hd.
  destruct (Nat.eqb_spec d (current_distribution_id s)) as [->|Hne].
  - by apply bool_decide_eq_true.
  - apply bool_decide_eq_false. congruence.
Qed.

Section Settled.
Context (s : state) (a : Z) (S T P : Q) (d : nat).
Context (HS : stake s !! a = Some S) (HP : pending_stake s !! a = Some P).
Context (Hd : distribution_id s !! a = Some d).

Lemma effective_stake_settled : effective_stake s a == settled_stake s S P d.
Proof.
  unfold effective_stake, settled_stake, stake_of, pending_of.
  rewrite (is_settled_eqb s a d), HS, HP by done. simpl.
  destruct (d =? current_distribution_id s)%nat; lra.
Qed.

Lemma waiting_stake_settled : waiting_stake s a = settled_pending s P d.
Proof.
  unfold waiting_stake, settled_pending, pending_of.
  by rewrite (is_settled_eqb s a d), HP.
Qed.

Lemma settled_stake_nonneg : account_ok s S T P d → 0 <= settled_stake s S P d.
Proof.
  intros [_ H1 H2 _ _]. unfold settled_stake.
  destruct (d =? current_distribution_id s)%nat; lra.
Qed.

Lemma settled_pending_nonneg :
  account_ok s S T P d → 0 <= settled_pending s P d.
Proof.
  intros [_ H1 H2 _ _]. unfold settled_pending.
  destruct (d =? current_distribution_id s)%nat; lra.
Qed.

End Settled.



Lemma gap_wf_init : wf init.
Proof.
  assert (∀ a S T P d,
    stake init !! a = Some S → reward_tally init !! a = Some T →
    pending_stake init !! a = Some P → distribution_id init !! a = Some d →
    S = 0 ∧ T = 0 ∧ P = 0 ∧ d = 0%nat) as Hzero.
  { intros a S T P d. simpl.
    destruct (decide (a = 1%Z)) as [->|?]; [intros; by simplify_map_eq|].
    destruct (decide (a = 2%Z)) as [->|?]; intros; by simplify_map_eq. }
  assert (∀ a, stake_of init a = 0 ∧ pending_of init a = 0) as Hof.
  { intros a. unfold stake_of, pending_of. simpl.
    destruct (decide (a = 1%Z)) as [->|?]; [by simplify_map_eq|].
    destruct (decide (a = 2%Z)) as [->|?]; by simplify_map_eq. }
  split.
  1-4: simpl; by rewrite dom_insert_L, dom_singleton_L.
  - intros i. simpl. rewrite lookup_empty. split; [by intros [] | lia].
  - intros i h. simpl. by rewrite lookup_empty.
  - apply sum_over_zero. intros a _. unfold effective_stake.
    destruct (Hof a) as [-> ->]. destruct (is_settled init a); simpl; lra.
  - apply sum_over_zero. intros a _. unfold waiting_stake.
    destruct (Hof a) as [_ ->]. by destruct (is_settled init a).
  - intros a S T P d HS HT HP Hd.
    destruct (Hzero a S T P d HS HT HP Hd) as (-> & -> & -> & ->).
    split; unfold settled_stake, settled_tally; simpl; first [lra | lia | done].
Qed.

(** Settling one account and rewriting its record, and the totals with
    it, keeps the state well-formed when the new record is sound against
    the unchanged accumulator. *)
Lemma gap_wf_update_account s a S T P d total' pending' S' T' P' :
  wf s →
  stake s !! a = Some S → reward_tally s !! a = Some T →
  pending_stake s !! a = Some P → distribution_id s !! a = Some d →
  total' == total_stake s - settled_stake s S P d + S' →
  pending' == total_pending_stake s - settled_pending s P d + P' →
  0 <= S' → 0 <= P' → 0 <= S' * reward_per_token s - T' →
  wf (State total' pending' (reward_per_token s)
        (reward_per_token_history s) (current_distribution_id s)
        (<[a:=S']> (stake s)) (<[a:=T']> (reward_tally s))
        (<[a:=P']> (pending_stake s))
        (<[a:=current_distribution_id s]> (distribution_id s))).
Proof.
  intros Hwf HS HT HP Hd Htotal Hpending HS' HP' Hreward.
  set (s' := State _ _ _ _ _ _ _ _ _).
  assert (Hin : a ∈ elements (dom (stake s)))
    by (apply elem_of_elements, elem_of_dom; eauto).
  assert (Hother : ∀ a', a' ≠ a →
    effective_stake s' a' = effective_stake s a' ∧
    waiting_stake s' a' = waiting_stake s a').
  { intros a' Hne.
    unfold effective_stake, waiting_stake, is_settled, stake_of, pending_of.
    subst s'. fields. by rewrite !lookup_insert_ne. }
  pose proof (effective_stake_settled s a S P d HS HP Hd) as He.
  pose proof (waiting_stake_settled s a P d HP Hd) as Hw.
  assert (effective_stake s' a == S' ∧ waiting_stake s' a = P') as [He' Hw'].
  { unfold effective_stake, waiting_stake, is_settled, stake_of, pending_of.
    subst s'. fields. rewrite !lookup_insert_eq.
    rewrite bool_decide_eq_true_2 by done. simpl. split; [lra | done]. }
  destruct Hwf as [H1 H2 H3 H4 Hdom Hle Hsum Hwait Hacc].
  split; subst s'; fields; try done.
  1-4: by rewrite dom_insert_lookup_L.
  - unfold effective_stake_sum, accounts in *. fields.
    rewrite dom_insert_lookup_L by done.
    etransitivity; [apply (sum_over_update (effective_stake s) _ _ a)|].
    + apply NoDup_elements.
    + done.
    + intros a' _ Hne. by destruct (Hother a' Hne) as [-> _].
    + lra.
  - unfold waiting_stake_sum, accounts in *. fields.
    rewrite dom_insert_lookup_L by done.
    etransitivity; [apply (sum_over_update (waiting_stake s) _ _ a)|].
    + apply NoDup_elements.
    + done.
    + intros a' _ Hne. by destruct (Hother a' Hne) as [_ ->].
    + rewrite Hw, Hw'. lra.
  - intros a' S0 T0 P0 d0. destruct (decide (a' = a)) as [->|Hne].
    + rewrite !lookup_insert_eq. intros [= <-] [= <-] [= <-] [= <-].
      split; fields; try done.
      unfold settled_stake, settled_tally. fields.
      by rewrite Nat.eqb_refl.
    + rewrite !lookup_insert_ne by done. intros HS0 HT0 HP0 Hd0.
      by destruct (Hacc a' S0 T0 P0 d0 HS0 HT0 HP0 Hd0).
Qed.

Section Preservation.
Context (s : state) (Hwf : wf s).

Lemma gap_wf_deposit_stake a amount :
  0 <= amount → wf (snd (deposit_stake a amount s)).
Proof.
  intros Hamount.
  destruct (decide (a ∈ ({[ 1%Z; 2%Z ]} : gset Z))) as [Ha|Ha].
  - destruct (gap_wf_known s a Hwf Ha) as (S & T & P & d & HS & HT & HP & Hd).
    pose proof (wf_accounts s Hwf a S T P d HS HT HP Hd) as Hok.
    rewrite (gap_deposit_stake_known s a S T P d) by (done || apply Hok). fields.
    pose proof (settled_stake_nonneg s S T P d Hok).
    pose proof (settled_pending_nonneg s S T P d Hok).
    apply (gap_wf_update_account s a S T P d); try done; try lra.
    apply Hok.
  - destruct (gap_wf_unknown s a Hwf Ha) as (HS & HT & HP & Hd).
    by rewrite gap_deposit_stake_unknown.
Qed.

Lemma gap_wf_withdraw_stake a amount :
  0 <= amount → wf (snd (withdraw_stake a amount s)).
Proof.
  intros Hamount.
  destruct (decide (a ∈ ({[ 1%Z; 2%Z ]} : gset Z))) as [Ha|Ha].
  - destruct (gap_wf_known s a Hwf Ha) as (S & T & P & d & HS & HT & HP & Hd).
    pose proof (wf_accounts s Hwf a S T P d HS HT HP Hd) as Hok.
    destruct (Qlt_le_dec (S + P) amount) as [Hlt|Hle].
    { by rewrite (gap_withdraw_stake_insufficient s a S P). }
    rewrite (gap_withdraw_stake_known s a S T P d) by (done || apply Hok). fields.
    pose proof (settled_stake_nonneg s S T P d Hok).
    pose proof (settled_pending_nonneg s S T P d Hok).
    pose proof (ok_reward _ _ _ _ _ Hok) as Hreward.
    assert (settled_stake s S P d + settled_pending s P d == S + P) as Hsp.
    { unfold settled_stake, settled_pending.
      destruct (d =? current_distribution_id s)%nat; lra. }
    set (S1 := settled_stake s S P d) in *.
    set (P1 := settled_pending s P d) in *.
    set (pa := py_min amount P1).
    assert (0 <= pa ∧ pa <= P1 ∧ pa <= amount ∧ amount - pa <= S1)
      as (Hpa0 & HpaP & Hpaa & HpaS).
    { subst pa. destruct (py_min_cases amount P1) as [[? ->]|[? ->]];
        repeat split; lra. }
    apply (gap_wf_update_account s a S T P d); try done; subst S1 P1 pa; lra.
  - destruct (gap_wf_unknown s a Hwf Ha) as (HS & HT & HP & Hd).
    by rewrite gap_withdraw_stake_unknown.
Qed.

Lemma gap_wf_withdraw_reward a : wf (snd (withdraw_reward a s)).
Proof.
  destruct (decide (a ∈ ({[ 1%Z; 2%Z ]} : gset Z))) as [Ha|Ha].
  - destruct (gap_wf_known s a Hwf Ha) as (S & T & P & d & HS & HT & HP & Hd).
    pose proof (wf_accounts s Hwf a S T P d HS HT HP Hd) as Hok.
    rewrite (gap_withdraw_reward_known s a S T P d) by (done || apply Hok). fields.
    pose proof (settled_stake_nonneg s S T P d Hok).
    pose proof (settled_pending_nonneg s S T P d Hok).
    apply (gap_wf_update_account s a S T P d); try done; lra.
  - destruct (gap_wf_unknown s a Hwf Ha) as (HS & HT & HP & Hd).
    by rewrite gap_withdraw_reward_unknown.
Qed.

End Preservation.

Lemma distribute_rate_mono reward s :
  wf s → 0 <= reward →
  reward_per_token s <=
  (if py_gt (total_stake s) 0
   then reward_per_token s + reward / total_stake s
   else reward_per_token s).
Proof.
  intros Hwf Hreward. destruct (py_gt_spec (total_stake s) 0) as [Hpos|_].
  - assert (0 <= reward / total_stake s)
      by (apply Qle_shift_div_l; [done | lra]).
    lra.
  - lra.
Qed.

Lemma gap_wf_distribute reward s :
  wf s → 0 <= reward → wf (snd (distribute reward s)).
Proof.
  intros Hwf Hreward. rewrite distribute_eq. fields.
  pose proof (distribute_rate_mono reward s Hwf Hreward) as Hmono.
  set (rpt' := if py_gt (total_stake s) 0 then _ else _) in *.
  set (s' := State _ _ _ _ _ _ _ _ _).
  assert (Hstale : ∀ a, a ∈ accounts s →
    effective_stake s' a == effective_stake s a + waiting_stake s a ∧
    waiting_stake s' a = 0).
  { intros a Ha. apply gap_wf_accounts_elem in Ha; [|done].
    destruct (gap_wf_known s a Hwf Ha) as (S & T & P & d & HS & HT & HP & Hd).
    pose proof (ok_epoch _ _ _ _ _ (wf_accounts s Hwf a S T P d HS HT HP Hd)).
    unfold effective_stake, waiting_stake.
    rewrite (is_settled_eqb s a d), (is_settled_eqb s' a d) by done.
    subst s'. unfold stake_of, pending_of. fields. rewrite HS, HP. simpl.
    destruct (Nat.eqb_spec d (current_distribution_id s + 1)); [lia|].
    split; [|done]. destruct (d =? current_distribution_id s)%nat; lra. }
  destruct Hwf as [H1 H2 H3 H4 Hdom Hle Hsum Hwait Hacc].
  split; subst s'; fields; try done.
  - intros i. rewrite lookup_insert_is_Some, Hdom. lia.
  - intros i h. rewrite lookup_insert.
    case_decide; [intros [= <-]; lra|].
    intros Hi. specialize (Hle i h Hi). lra.
  - unfold effective_stake_sum, waiting_stake_sum, accounts in *. fields.
    etransitivity; [apply sum_over_ext; intros a Ha; by apply Hstale|].
    rewrite sum_over_plus. lra.
  - unfold waiting_stake_sum, accounts in *. fields.
    apply sum_over_zero. intros a Ha.
    destruct (Hstale a Ha) as [_ ->]. lra.
  - intros a S T P d HS HT HP Hd.
    destruct (Hacc a S T P d HS HT HP Hd) as [He Hs Hp Hh Hr].
    split; unfold settled_stake, settled_tally, rate_at in *; fields;
      [lia | done | done | |].
    + intros _. rewrite lookup_insert_is_Some.
      destruct (decide (current_distribution_id s = d)); auto.
    + destruct (Nat.eqb_spec d (current_distribution_id s + 1)); [lia|].
      rewrite lookup_insert.
      destruct (Nat.eqb_spec d (current_distribution_id s)) as [->|Hne].
      * rewrite decide_True by done. simpl.
        assert (0 <= S * (rpt' - reward_per_token s))
          by (apply Qmult_le_0_compat; lra).
        lra.
      * rewrite decide_False by done.
        assert (0 <= (S + P) * (rpt' - reward_per_token s))
          by (apply Qmult_le_0_compat; lra).
        lra.
Qed.

Lemma gap_compute_reward_pure a s : snd (compute_reward a s) = s.
Proof.
  unfold compute_reward. run.
  repeat first
    [ progress fields
    | match goal with
      | |- context [match ?m !! ?k with _ => _ end] => destruct (m !! k)
      | |- context [(?x =? ?y)%nat] => destruct (x =? y)%nat
      end ].
  all: done.
Qed.

Lemma gap_wf_perform c s : wf s → nonneg_call c → wf (snd (perform c s)).
Proof.
  intros Hwf Hc. destruct c as [reward|a amount|a amount|a|a]; simpl in Hc.
  - pose proof (gap_wf_distribute reward s Hwf Hc) as H.
    unfold perform. unfold_method. by destruct (distribute reward s) as [[]].
  - pose proof (gap_wf_deposit_stake s Hwf a amount Hc) as H.
    unfold perform. unfold_method. by destruct (deposit_stake a amount s) as [[]].
  - pose proof (gap_wf_withdraw_stake s Hwf a amount Hc) as H.
    unfold perform. unfold_method. by destruct (withdraw_stake a amount s) as [[]].
  - pose proof (gap_compute_reward_pure a s) as H.
    unfold perform. unfold_method.
    destruct (compute_reward a s) as [[]]; simpl in *; by subst.
  - pose proof (gap_wf_withdraw_reward s Hwf a) as H.
    unfold perform. unfold_method. by destruct (withdraw_reward a s) as [[]].
Qed.

Lemma gap_reachable_wf s : reachable s → wf s.
Proof.
  induction 1 as [|c s _ IH Hc]; [apply gap_wf_init | by apply gap_wf_perform].
Qed.

End GapFacts.

(** * The specification's properties *)

Lemma deferred_reachable_after calls s :
  Deferred.reachable s → Forall nonneg_call calls →
  Deferred.reachable (Deferred.after calls s).
Proof.
  intros Hs Hcalls. revert s Hs.
  induction Hcalls as [|c calls Hc _ IH]; intros s Hs; [done|].
  apply IH. by constructor.
Qed.

Lemma gap_reachable_after calls s :
  Gap.reachable s → Forall nonneg_call calls →
  Gap.reachable (Gap.after calls s).
Proof.
  intros Hs Hcalls. revert s Hs.
  induction Hcalls as [|c calls Hc _ IH]; intros s Hs; [done|].
  apply IH. by constructor.
Qed.

(** ** No negative rewards *)





(** ** Withdrawing more than the claimable stake *)

Lemma deferred_withdraw_stake_atomic s address amount :
  Deferred.wf s →
  (fst (Deferred.withdraw_stake address amount s) = Raise InsufficientStake ↔
   ∃ S, Deferred.stake s !! address = Some S ∧ S < amount) ∧
  (∀ e, fst (Deferred.withdraw_stake address amount s) = Raise e →
        snd (Deferred.withdraw_stake address amount s) = s ∧
        (e = InsufficientStake ∨
         e = KeyError ∧ Deferred.stake s !! address = None)).
Proof.
  intros Hwf.
  destruct (decide (address ∈ ({[ 1%Z; 2%Z ]} : gset Z))) as [Ha|Ha].
  - destruct (DeferredFacts.deferred_wf_known s address Hwf Ha)
      as (S & T & R & d & HS & HT & HR & Hd).
    destruct (Qlt_le_dec S amount) as [Hlt|Hle].
    + rewrite (DeferredFacts.deferred_withdraw_stake_insufficient s address S) by done.
      simpl. split; [split; eauto|]. intros e [= <-]. auto.
    + rewrite (DeferredFacts.deferred_withdraw_stake_known s address S T R d) by done.
      simpl. split; [|done]. split; [done|].
      intros (S' & HS' & Hlt). rewrite HS in HS'. injection HS' as <-. lra.
  - destruct (DeferredFacts.deferred_wf_unknown s address Hwf Ha) as (HS & HT & HR & Hd).
    rewrite DeferredFacts.deferred_withdraw_stake_unknown by done. simpl.
    split; [split; [done|]|].
    + intros (S' & HS' & _). congruence.
    + intros e [= <-]. auto.
Qed.

Lemma gap_withdraw_stake_atomic s address amount :
  Gap.wf s →
  (fst (Gap.withdraw_stake address amount s) = Raise InsufficientStake ↔
   ∃ S P, Gap.stake s !! address = Some S ∧
          Gap.pending_stake s !! address = Some P ∧ S + P < amount) ∧
  (∀ e, fst (Gap.withdraw_stake address amount s) = Raise e →
        snd (Gap.withdraw_stake address amount s) = s ∧
        (e = InsufficientStake ∨
         e = KeyError ∧ Gap.stake s !! address = None)).
Proof.
  intros Hwf.
  destruct (decide (address ∈ ({[ 1%Z; 2%Z ]} : gset Z))) as [Ha|Ha].
  - destruct (GapFacts.gap_wf_known s address Hwf Ha)
      as (S & T & P & d & HS & HT & HP & Hd).
    pose proof (Gap.wf_accounts s Hwf address S T P d HS HT HP Hd) as Hok.
    destruct (Qlt_le_dec (S + P) amount) as [Hlt|Hle].
    + rewrite (GapFacts.gap_withdraw_stake_insufficient s address S P) by done.
      simpl. split; [split; eauto|]. intros e [= <-]. auto.
    + rewrite (GapFacts.gap_withdraw_stake_known s address S T P d)
        by (done || apply Hok).
      simpl. split; [|done]. split; [done|].
      intros (S' & P' & HS' & HP' & Hlt). rewrite HS in HS'. rewrite HP in HP'.
      injection HS' as <-. injection HP' as <-. lra.
  - destruct (GapFacts.gap_wf_unknown s address Hwf Ha) as (HS & HT & HP & Hd).
    rewrite GapFacts.gap_withdraw_stake_unknown by done. simpl.
    split; [split; [done|]|].
    + intros (S' & P' & HS' & _). congruence.
    + intros e [= <-]. auto.
Qed.

(** C3.  Under both policies, in every reachable state,
    [withdraw_stake(address, amount)] fails with [InsufficientStake]
    exactly when [amount] exceeds the claimable stake of the account
    (its active stake under Policy A, active plus pending stake under
    Policy B), and a call that fails leaves the whole state, pool and
    account records alike, as it was.  The only other failure is
    [KeyError] for an address without a record. *)
Theorem withdraw_stake_insufficient_atomic
    (sA : Deferred.state) (sB : Gap.state) (address : Z) (amount : Q) :
  Deferred.reachable sA → Gap.reachable sB →
  ((fst (Deferred.withdraw_stake address amount sA) = Raise InsufficientStake ↔
    ∃ S, Deferred.stake sA !! address = Some S ∧ S < amount) ∧
   (∀ e, fst (Deferred.withdraw_stake address amount sA) = Raise e →
         snd (Deferred.withdraw_stake address amount sA) = sA ∧
         (e = InsufficientStake ∨
          e = KeyError ∧ Deferred.stake sA !! address = None))) ∧
  ((fst (Gap.withdraw_stake address amount sB) = Raise InsufficientStake ↔
    ∃ S P, Gap.stake sB !! address = Some S ∧
           Gap.pending_stake sB !! address = Some P ∧ S + P < amount) ∧
   (∀ e, fst (Gap.withdraw_stake address amount sB) = Raise e →
         snd (Gap.withdraw_stake address amount sB) = sB ∧
         (e = InsufficientStake ∨
          e = KeyError ∧ Gap.stake sB !! address = None))).
Proof.
  intros HA HB. split.
  - by apply deferred_withdraw_stake_atomic, DeferredFacts.deferred_reachable_wf.
  - by apply gap_withdraw_stake_atomic, GapFacts.gap_reachable_wf.
Qed.

Lemma withdraw_stake_insufficient_atomic_witness :
  let calls := [DepositStake 1 4; Distribute 2; DepositStake 1 3] in
  let sA := Deferred.after calls Deferred.init in
  let sB := Gap.after calls Gap.init in
  Deferred.reachable sA ∧ Gap.reachable sB ∧
  Deferred.withdraw_stake 1 8 sA = (Raise InsufficientStake, sA) ∧
  Gap.withdraw_stake 1 8 sB = (Raise InsufficientStake, sB).
Proof.
  intros calls sA sB.
  assert (Forall nonneg_call calls) as Hcalls
    by (repeat constructor; simpl; lra).
  assert (Deferred.reachable sA) as HA
    by (apply deferred_reachable_after; [constructor | done]).
  assert (Gap.reachable sB) as HB
    by (apply gap_reachable_after; [constructor | done]).
  destruct (withdraw_stake_insufficient_atomic sA sB 1 8 HA HB)
    as [[HA1 HA2] [HB1 HB2]].
  assert (fst (Deferred.withdraw_stake 1 8 sA) = Raise InsufficientStake) as EA.
  { apply HA1. exists 7. split; [by vm_compute | by vm_compute]. }
  assert (fst (Gap.withdraw_stake 1 8 sB) = Raise InsufficientStake) as EB.
  { apply HB1. exists 4, 3. repeat split; by vm_compute. }
  split; [done|]. split; [done|]. split.
  - destruct (HA2 _ EA) as [Hs _].
    destruct (Deferred.withdraw_stake 1 8 sA); simpl in *; congruence.
  - destruct (HB2 _ EB) as [Hs _].
    destruct (Gap.withdraw_stake 1 8 sB); simpl in *; congruence.
Defined.

(** ** [distribute] *)






(** ** The worked example of Policy A *)


(** ** Claiming rewards *)











(** ** Unknown addresses *)

(** C8, as stated, fails: address [3] was never seen, and on the fresh
    ledger [compute_reward(3)] raises [KeyError] under both policies
    instead of returning the zero-state result; [deposit_stake(3, 5)]
    raises as well and creates no record. *)
Lemma unknown_address_counterexample :
  Deferred.compute_reward 3 Deferred.init = (Raise KeyError, Deferred.init) ∧
  Gap.compute_reward 3 Gap.init = (Raise KeyError, Gap.init) ∧
  Deferred.deposit_stake 3 5 Deferred.init
    = (Raise KeyError, Deferred.init) ∧
  Gap.deposit_stake 3 5 Gap.init = (Raise KeyError, Gap.init).
Proof. repeat split; by vm_compute. Qed.

Lemma deferred_perform_registered s c :
  Deferred.wf s →
  match call_address c with
  | Some address =>
      if decide (address ∈ registered)
      then fst (Deferred.perform c s) ≠ Raise KeyError
      else Deferred.perform c s = (Raise KeyError, s)
  | None => fst (Deferred.perform c s) ≠ Raise KeyError
  end.
Proof.
  intros Hwf. unfold registered.
  destruct c as [reward|a amount|a amount|a|a]; simpl.
  - unfold_method. destruct (Qeq_dec (Deferred.total_stake s) 0) as [H0|H0].
    + by rewrite DeferredFacts.distribute_empty.
    + by rewrite DeferredFacts.distribute_staked.
  - unfold_method. case_decide as Ha.
    + destruct (DeferredFacts.deferred_wf_known s a Hwf Ha)
        as (S & T & R & d & HS & HT & HR & Hd).
      by rewrite (DeferredFacts.deferred_deposit_stake_known s a S T R d).
    + destruct (DeferredFacts.deferred_wf_unknown s a Hwf Ha) as (HS & HT & HR & Hd).
      by rewrite DeferredFacts.deferred_deposit_stake_unknown.
  - unfold_method. case_decide as Ha.
    + destruct (DeferredFacts.deferred_wf_known s a Hwf Ha)
        as (S & T & R & d & HS & HT & HR & Hd).
      destruct (Qlt_le_dec S amount) as [Hlt|Hle].
      * by rewrite (DeferredFacts.deferred_withdraw_stake_insufficient s a S).
      * by rewrite (DeferredFacts.deferred_withdraw_stake_known s a S T R d).
    + destruct (DeferredFacts.deferred_wf_unknown s a Hwf Ha) as (HS & HT & HR & Hd).
      by rewrite DeferredFacts.deferred_withdraw_stake_unknown.
  - unfold_method. case_decide as Ha.
    + destruct (DeferredFacts.deferred_wf_known s a Hwf Ha)
        as (S & T & R & d & HS & HT & HR & Hd).
      by rewrite (DeferredFacts.deferred_compute_reward_known s a S T R d).
    + destruct (DeferredFacts.deferred_wf_unknown s a Hwf Ha) as (HS & HT & HR & Hd).
      by rewrite DeferredFacts.deferred_compute_reward_unknown.
  - unfold_method. case_decide as Ha.
    + destruct (DeferredFacts.deferred_wf_known s a Hwf Ha)
        as (S & T & R & d & HS & HT & HR & Hd).
      by rewrite (DeferredFacts.deferred_withdraw_reward_known s a S T R d).
    + destruct (DeferredFacts.deferred_wf_unknown s a Hwf Ha) as (HS & HT & HR & Hd).
      by rewrite DeferredFacts.deferred_withdraw_reward_unknown.
Qed.

Lemma gap_perform_registered s c :
  Gap.wf s →
  match call_address c with
  | Some address =>
      if decide (address ∈ registered)
      then fst (Gap.perform c s) ≠ Raise KeyError
      else Gap.perform c s = (Raise KeyError, s)
  | None => fst (Gap.perform c s) ≠ Raise KeyError
  end.
Proof.
  intros Hwf. unfold registered.
  destruct c as [reward|a amount|a amount|a|a]; simpl.
  - unfold_method. by rewrite GapFacts.distribute_eq.
  - unfold_method. case_decide as Ha.
    + destruct (GapFacts.gap_wf_known s a Hwf Ha)
        as (S & T & P & d & HS & HT & HP & Hd).
      pose proof (Gap.wf_accounts s Hwf a S T P d HS HT HP Hd) as Hok.
      by rewrite (GapFacts.gap_deposit_stake_known s a S T P d)
        by (done || apply Hok).
    + destruct (GapFacts.gap_wf_unknown s a Hwf Ha) as (HS & HT & HP & Hd).
      by rewrite GapFacts.gap_deposit_stake_unknown.
  - unfold_method. case_decide as Ha.
    + destruct (GapFacts.gap_wf_known s a Hwf Ha)
        as (S & T & P & d & HS & HT & HP & Hd).
      pose proof (Gap.wf_accounts s Hwf a S T P d HS HT HP Hd) as Hok.
      destruct (Qlt_le_dec (S + P) amount) as [Hlt|Hle].
      * by rewrite (GapFacts.gap_withdraw_stake_insufficient s a S P).
      * by rewrite (GapFacts.gap_withdraw_stake_known s a S T P d)
          by (done || apply Hok).
    + destruct (GapFacts.gap_wf_unknown s a Hwf Ha) as (HS & HT & HP & Hd).
      by rewrite GapFacts.gap_withdraw_stake_unknown.
  - unfold_method. case_decide as Ha.
    + destruct (GapFacts.gap_wf_known s a Hwf Ha)
        as (S & T & P & d & HS & HT & HP & Hd).
      pose proof (Gap.wf_accounts s Hwf a S T P d HS HT HP Hd) as Hok.
      by rewrite (GapFacts.gap_compute_reward_known s a S T P d)
        by (done || apply Hok).
    + destruct (GapFacts.gap_wf_unknown s a Hwf Ha) as (HS & HT & HP & Hd).
      by rewrite GapFacts.gap_compute_reward_unknown.
  - unfold_method. case_decide as Ha.
    + destruct (GapFacts.gap_wf_known s a Hwf Ha)
        as (S & T & P & d & HS & HT & HP & Hd).
      pose proof (Gap.wf_accounts s Hwf a S T P d HS HT HP Hd) as Hok.
      by rewrite (GapFacts.gap_withdraw_reward_known s a S T P d)
        by (done || apply Hok).
    + destruct (GapFacts.gap_wf_unknown s a Hwf Ha) as (HS & HT & HP & Hd).
      by rewrite GapFacts.gap_withdraw_reward_unknown.
Qed.

(** C8, amended.  Under both policies the only records are those of the
    two addresses [__init__] registers: in every reachable state each
    per-address dictionary has exactly the keys [1] and [2], and no
    method ever creates another.  A call about a registered address never
    raises [KeyError]; a call about any other address raises [KeyError]
    and changes nothing; [distribute] never raises [KeyError]. *)
Theorem records_are_fixed
    (sA : Deferred.state) (sB : Gap.state) (c : call) :
  Deferred.reachable sA → Gap.reachable sB →
  (dom (Deferred.stake sA) = registered ∧
   dom (Deferred.reward_tally sA) = registered ∧
   dom (Deferred.rewarded_stake sA) = registered ∧
   dom (Deferred.distribution_id sA) = registered) ∧
  (dom (Gap.stake sB) = registered ∧
   dom (Gap.reward_tally sB) = registered ∧
   dom (Gap.pending_stake sB) = registered ∧
   dom (Gap.distribution_id sB) = registered) ∧
  match call_address c with
  | Some address =>
      if decide (address ∈ registered)
      then fst (Deferred.perform c sA) ≠ Raise KeyError ∧
           fst (Gap.perform c sB) ≠ Raise KeyError
      else Deferred.perform c sA = (Raise KeyError, sA) ∧
           Gap.perform c sB = (Raise KeyError, sB)
  | None => fst (Deferred.perform c sA) ≠ Raise KeyError ∧
            fst (Gap.perform c sB) ≠ Raise KeyError
  end.
Proof.
  intros HA HB.
  apply DeferredFacts.deferred_reachable_wf in HA. apply GapFacts.gap_reachable_wf in HB.
  split; [by destruct HA|]. split; [by destruct HB|].
  pose proof (deferred_perform_registered sA c HA) as PA.
  pose proof (gap_perform_registered sB c HB) as PB.
  destruct (call_address c) as [address|]; [|done].
  by destruct (decide (address ∈ registered)).
Qed.

Lemma records_are_fixed_witness :
  let calls := [DepositStake 1 4; Distribute 2; DepositStake 3 5] in
  let sA := Deferred.after calls Deferred.init in
  let sB := Gap.after calls Gap.init in
  Deferred.reachable sA ∧ Gap.reachable sB ∧
  Deferred.perform (WithdrawReward 3) sA = (Raise KeyError, sA) ∧
  Gap.perform (WithdrawReward 3) sB = (Raise KeyError, sB).
Proof.
  intros calls sA sB.
  assert (Forall nonneg_call calls) as Hcalls
    by (repeat constructor; simpl; lra).
  assert (Deferred.reachable sA) as HA
    by (apply deferred_reachable_after; [constructor | done]).
  assert (Gap.reachable sB) as HB
    by (apply gap_reachable_after; [constructor | done]).
  split; [done|]. split; [done|].
  destruct (records_are_fixed sA sB (WithdrawReward 3) HA HB) as (_ & _ & H).
  simpl in H. by rewrite decide_False in H by (by vm_compute).
Defined.

(** ** The stake totals *)




(** ** The rate history of Policy B *)

(** C10.  Policy B.  In every reachable state every account's
    [distribution_id] is at most [current_distribution_id], and
    [reward_per_token_history] has an entry for every epoch id below
    [current_distribution_id]; so the history entry a stale account needs
    is there, and [__update_state] and [compute_reward] return normally on
    every account that has a record. *)
Theorem gap_history_lookups (s : Gap.state) :
  Gap.reachable s →
  (∀ i, (i < Gap.current_distribution_id s)%nat →
        is_Some (Gap.reward_per_token_history s !! i)) ∧
  (∀ address d,
     Gap.distribution_id s !! address = Some d →
     (d ≤ Gap.current_distribution_id s)%nat ∧
     (d ≠ Gap.current_distribution_id s →
      is_Some (Gap.reward_per_token_history s !! d)) ∧
     fst (Gap.__update_state address s) = Return tt ∧
     ∃ r, Gap.compute_reward address s = (Return r, s)).
Proof.
  intros Hs. apply GapFacts.gap_reachable_wf in Hs. split.
  - intros i Hi. by apply (Gap.wf_history s Hs).
  - intros address d Hd.
    assert (address ∈ ({[ 1%Z; 2%Z ]} : gset Z)) as Ha.
    { rewrite <- (Gap.wf_distribution_id s Hs). apply elem_of_dom. eauto. }
    destruct (GapFacts.gap_wf_known s address Hs Ha)
      as (S & T & P & d' & HS & HT & HP & Hd').
    assert (d' = d) as -> by congruence.
    destruct (Gap.wf_accounts s Hs address S T P d HS HT HP Hd)
      as [He _ _ Hh _].
    split; [done|]. split; [done|]. split.
    + by rewrite (GapFacts.update_state_known s address S T P d).
    + eexists. by apply (GapFacts.gap_compute_reward_known s address S T P d).
Qed.

Lemma gap_history_lookups_witness :
  let calls :=
    [DepositStake 1 4; Distribute 2; DepositStake 2 3; Distribute 1;
     Distribute 5] in
  let s := Gap.after calls Gap.init in
  Gap.reachable s ∧
  Gap.current_distribution_id s = 3%nat ∧
  Gap.distribution_id s !! 1%Z = Some 0%nat ∧
  is_Some (Gap.reward_per_token_history s !! 0%nat) ∧
  fst (Gap.__update_state 1 s) = Return tt ∧
  ∃ r, Gap.compute_reward 1 s = (Return r, s).
Proof.
  intros calls s.
  assert (Forall nonneg_call calls) as Hcalls
    by (repeat constructor; simpl; lra).
  assert (Gap.reachable s) as Hs
    by (apply gap_reachable_after; [constructor | done]).
  assert (Gap.distribution_id s !! 1%Z = Some 0%nat) as Hd by (by vm_compute).
  split; [done|]. split; [by vm_compute|]. split; [done|].
  destruct (gap_history_lookups s Hs) as [_ H].
  destruct (H 1%Z 0%nat Hd) as (_ & Hh & Hu & Hc).
  split; [|done]. apply Hh. by vm_compute.
Defined.

(** * Further properties of the two ledgers *)

(** ** Policy A, call by call *)

Module DeferredCalls.
Import Deferred.

Lemma deferred_call_view s c :
  wf s → call_view s c (fst (perform c s)) (snd (perform c s)).
Proof.
  intros Hwf. destruct c as [reward|a amount|a amount|a|a];
    unfold perform; unfold_method.
  - destruct (Qeq_dec (total_stake s) 0) as [H0|H0].
    + rewrite DeferredFacts.distribute_empty by done. by constructor.
    + rewrite DeferredFacts.distribute_staked by done. by constructor.
  - destruct (decide (a ∈ ({[ 1%Z; 2%Z ]} : gset Z))) as [Ha|Ha].
    + destruct (DeferredFacts.deferred_wf_known s a Hwf Ha)
        as (S & T & R & d & HS & HT & HR & Hd).
      rewrite (DeferredFacts.deferred_deposit_stake_known s a S T R d)
        by done.
      by apply view_deposit_stake.
    + destruct (DeferredFacts.deferred_wf_unknown s a Hwf Ha)
        as (HS & HT & HR & Hd).
      rewrite DeferredFacts.deferred_deposit_stake_unknown by done.
      by apply (view_unknown s _ a).
  - destruct (decide (a ∈ ({[ 1%Z; 2%Z ]} : gset Z))) as [Ha|Ha].
    + destruct (DeferredFacts.deferred_wf_known s a Hwf Ha)
        as (S & T & R & d & HS & HT & HR & Hd).
      destruct (Qlt_le_dec S amount) as [Hlt|Hle].
      * rewrite (DeferredFacts.deferred_withdraw_stake_insufficient s a S)
          by done.
        by apply (view_withdraw_stake_insufficient s a amount S T R d).
      * rewrite (DeferredFacts.deferred_withdraw_stake_known s a S T R d)
          by done.
        by apply view_withdraw_stake.
    + destruct (DeferredFacts.deferred_wf_unknown s a Hwf Ha)
        as (HS & HT & HR & Hd).
      rewrite DeferredFacts.deferred_withdraw_stake_unknown by done.
      by apply (view_unknown s _ a).
  - destruct (decide (a ∈ ({[ 1%Z; 2%Z ]} : gset Z))) as [Ha|Ha].
    + destruct (DeferredFacts.deferred_wf_known s a Hwf Ha)
        as (S & T & R & d & HS & HT & HR & Hd).
      rewrite (DeferredFacts.deferred_compute_reward_known s a S T R d)
        by done.
      by apply view_compute_reward.
    + destruct (DeferredFacts.deferred_wf_unknown s a Hwf Ha)
        as (HS & HT & HR & Hd).
      rewrite DeferredFacts.deferred_compute_reward_unknown by done.
      by apply (view_unknown s _ a).
  - destruct (decide (a ∈ ({[ 1%Z; 2%Z ]} : gset Z))) as [Ha|Ha].
    + destruct (DeferredFacts.deferred_wf_known s a Hwf Ha)
        as (S & T & R & d & HS & HT & HR & Hd).
      rewrite (DeferredFacts.deferred_withdraw_reward_known s a S T R d)
        by done.
      pose proof (view_withdraw_reward s a S T R d) as V.
      unfold with_record in V.
      rewrite (insert_id (stake s)), (insert_id (rewarded_stake s)),
        (insert_id (distribution_id s)) in V by done.
      by apply V.
    + destruct (DeferredFacts.deferred_wf_unknown s a Hwf Ha)
        as (HS & HT & HR & Hd).
      rewrite DeferredFacts.deferred_withdraw_reward_unknown by done.
      by apply (view_unknown s _ a).
Qed.

(** See a call through its outcome [o] and final state [s']. *)
Ltac by_view Hwf s c o s' V :=
  pose proof (deferred_call_view s c Hwf) as V; revert V;
  generalize (fst (perform c s)) (snd (perform c s)); intros o s' V.

(** *** Rewriting one record *)

Section WithRecord.
Context (s : state) (a : Z) (S T R : Q) (d : nat).
Context (Hrec : record_at s a S T R d).
Context (total lost S' T' R' : Q) (d' : nat).

Let s' := with_record s a total lost S' T' R' d'.

Lemma deferred_with_record_at : record_at s' a S' T' R' d'.
Proof. repeat split; apply lookup_insert_eq. Qed.

Lemma deferred_with_record_other b :
  b ≠ a →
  stake s' !! b = stake s !! b ∧ reward_tally s' !! b = reward_tally s !! b ∧
  rewarded_stake s' !! b = rewarded_stake s !! b ∧
  distribution_id s' !! b = distribution_id s !! b.
Proof. intros Hne. repeat split; by apply lookup_insert_ne. Qed.

Lemma deferred_with_record_accounts : accounts s' = accounts s.
Proof.
  destruct Hrec as (HS & _). unfold accounts. subst s'. simpl.
  by rewrite dom_insert_lookup_L.
Qed.

Lemma deferred_with_record_accrued_sum :
  sum_over (accrued s') (accounts s') ==
  sum_over (accrued s) (accounts s)
  - (S * reward_per_token s - T) + (S' * reward_per_token s - T').
Proof.
  destruct Hrec as (HS & HT & _).
  rewrite deferred_with_record_accounts.
  etransitivity; [apply (sum_over_update (accrued s) _ _ a)|].
  - unfold accounts. apply NoDup_elements.
  - unfold accounts. apply elem_of_elements, elem_of_dom. eauto.
  - intros b _ Hne. unfold accrued, stake_of, tally_of. subst s'. simpl.
    by rewrite !lookup_insert_ne.
  - unfold accrued, stake_of, tally_of. subst s'. simpl.
    rewrite !lookup_insert_eq, HS, HT. simpl. lra.
Qed.

End WithRecord.

Lemma deferred_record_accrued s a S T R d :
  record_at s a S T R d → accrued s a = S * reward_per_token s - T.
Proof.
  intros (HS & HT & _). unfold accrued, stake_of, tally_of.
  by rewrite HS, HT.
Qed.

Lemma deferred_record_ok s a S T R d :
  wf s → record_at s a S T R d → account_ok s S T R d.
Proof. intros Hwf (HS & HT & HR & Hd). by apply (wf_accounts s Hwf a). Qed.

Lemma deferred_record_exists s a :
  wf s → is_Some (stake s !! a) → ∃ S T R d, record_at s a S T R d.
Proof.
  intros Hwf Ha. apply DeferredFacts.deferred_wf_known; [done|].
  rewrite <- (wf_stake s Hwf). by apply elem_of_dom.
Qed.

Lemma deferred_compute_reward_at s a S T R d :
  record_at s a S T R d →
  compute_reward a s =
  (Return (S * reward_per_token s - T
           - previous_stake s S R d * last_rate s), s).
Proof.
  intros (HS & HT & HR & Hd).
  by apply DeferredFacts.deferred_compute_reward_known.
Qed.

Lemma rewarded_part_spec amount S R1 :
  R1 <= S → rewarded_part amount S R1 == Qmax 0 (amount - (S - R1)).
Proof.
  intros HR. unfold rewarded_part.
  destruct (py_max_cases (S - R1) 0) as [[? ->]|[? ->]]; [lra|].
  destruct (py_min_cases amount (S - R1)) as [[? ->]|[? ->]].
  - rewrite Q.max_r; lra.
  - rewrite Q.max_l; lra.
Qed.

Lemma stake_share_sum s rate :
  sum_over (λ a, stake_of s a * rate) (accounts s) == stake_sum s * rate.
Proof.
  unfold stake_sum. induction (accounts s) as [|x l IH]; simpl; [lra|].
  rewrite IH. lra.
Qed.

(** *** One call and the reward the ledger holds *)

Lemma deferred_outstanding_call s c :
  wf s →
  outstanding (snd (perform c s)) ==
  outstanding s + reward_in c (fst (perform c s))
  - reward_out c (fst (perform c s)).
Proof.
  intros Hwf. by_view Hwf s c o s' V. unfold outstanding.
  destruct V as [reward H0|reward H0|c a Hc Hnone|a amount S T R d Hrec
               |a amount S T R d Hrec Hlt|a amount S T R d Hrec Hle
               |a S T R d Hrec|a S T R d Hrec]; simpl.
  - lra.
  - set (rate := (reward + lost_reward s) / total_stake s).
    assert (sum_over
              (accrued (State (total_stake s) (reward_per_token s + rate)
                          rate 0 (current_distribution_id s + 1) (stake s)
                          (reward_tally s) (rewarded_stake s)
                          (distribution_id s)))
              (accounts s)
            == sum_over (accrued s) (accounts s)
               + sum_over (λ a, stake_of s a * rate) (accounts s)) as ->.
    { rewrite <- sum_over_plus. apply sum_over_ext. intros a _.
      unfold accrued, stake_of, tally_of. simpl. lra. }
    rewrite stake_share_sum, (wf_total_stake s Hwf). subst rate.
    field. done.
  - destruct c; simpl; lra.
  - rewrite (deferred_with_record_accrued_sum s a S T R d) by done. lra.
  - lra.
  - rewrite (deferred_with_record_accrued_sum s a S T R d) by done. lra.
  - lra.
  - rewrite (deferred_with_record_accrued_sum s a S T R d) by done. lra.
Qed.

(** *** One call and the accumulator *)

Lemma deferred_accumulator_call s c :
  wf s → nonneg_call c →
  reward_per_token s <= reward_per_token (snd (perform c s)) ∧
  (current_distribution_id s ≤ current_distribution_id (snd (perform c s)))%nat ∧
  (is_Some (call_address c) →
   reward_per_token (snd (perform c s)) = reward_per_token s ∧
   last_rate (snd (perform c s)) = last_rate s ∧
   current_distribution_id (snd (perform c s)) = current_distribution_id s).
Proof.
  intros Hwf Hc. pose proof (wf_lost_reward s Hwf) as Hlost.
  pose proof (DeferredFacts.deferred_wf_total_stake_nonneg s Hwf) as Htot.
  by_view Hwf s c o s' V.
  destruct V; unfold with_record; DeferredFacts.fields;
    try (split; [lra | split; [lia | by intros _]]).
  simpl in Hc.
  assert (0 <= (reward + lost_reward s) / total_stake s).
  { apply Qdiv_nonneg; [lra|]. by apply pos_of_nonneg_nonzero. }
  split; [lra|]. split; [lia|]. by intros [].
Qed.

Lemma deferred_rpt_nonneg s : reachable s → 0 <= reward_per_token s.
Proof.
  induction 1 as [|c s Hs IH Hc]; [simpl; lra|].
  apply DeferredFacts.deferred_reachable_wf in Hs.
  destruct (deferred_accumulator_call s c Hs Hc) as [Hle _]. lra.
Qed.

Lemma deferred_others_call s c a b :
  wf s → call_address c = Some a → b ≠ a →
  stake (snd (perform c s)) !! b = stake s !! b ∧
  reward_tally (snd (perform c s)) !! b = reward_tally s !! b ∧
  rewarded_stake (snd (perform c s)) !! b = rewarded_stake s !! b ∧
  distribution_id (snd (perform c s)) !! b = distribution_id s !! b.
Proof.
  intros Hwf Hc Hne. revert Hc. by_view Hwf s c o s' V.
  destruct V; cbn [call_address]; try done;
    intros [= <-]; by apply deferred_with_record_other.
Qed.

Lemma record_at_inj s a S T R d S0 T0 R0 d0 :
  record_at s a S T R d → record_at s a S0 T0 R0 d0 →
  S0 = S ∧ T0 = T ∧ R0 = R ∧ d0 = d.
Proof.
  intros (H1 & H2 & H3 & H4) (G1 & G2 & G3 & G4).
  repeat split; congruence.
Qed.

(** [compute_reward] reads nothing but the accumulator and the record of
    its address. *)
Lemma deferred_compute_reward_local s s' a :
  reward_per_token s' = reward_per_token s → last_rate s' = last_rate s →
  current_distribution_id s' = current_distribution_id s →
  stake s' !! a = stake s !! a →
  reward_tally s' !! a = reward_tally s !! a →
  rewarded_stake s' !! a = rewarded_stake s !! a →
  distribution_id s' !! a = distribution_id s !! a →
  fst (compute_reward a s') = fst (compute_reward a s).
Proof.
  intros E1 E2 E3 E4 E5 E6 E7. unfold compute_reward.
  destruct (stake s !! a) eqn:H4; destruct (reward_tally s !! a) eqn:H5;
    destruct (rewarded_stake s !! a) eqn:H6;
    destruct (distribution_id s !! a) as [d|] eqn:H7;
    DeferredFacts.run; rewrite ?E1, ?E2, ?E3; try done.
  all: destruct (d =? current_distribution_id s)%nat; DeferredFacts.run;
    by rewrite ?E1, ?E2.
Qed.

Lemma same_reward_refl o : same_reward o o.
Proof. destruct o; simpl; [reflexivity | done]. Qed.

Lemma deferred_stake_call_reward s c a amount b :
  wf s → c = DepositStake a amount ∨ c = WithdrawStake a amount →
  same_reward (fst (compute_reward b s))
              (fst (compute_reward b (snd (perform c s)))).
Proof.
  intros Hwf Hc. destruct (decide (b = a)) as [->|Hne].
  - revert Hc. by_view Hwf s c o s' V.
    destruct V as [reward H0|reward H0|c a' Hc Hnone|a' amount' S T R d Hrec
                 |a' amount' S T R d Hrec Hlt|a' amount' S T R d Hrec Hle
                 |a' S T R d Hrec|a' S T R d Hrec];
      intros [Hc'|Hc']; try discriminate Hc'; try apply same_reward_refl.
    + injection Hc' as -> ->.
      rewrite (deferred_compute_reward_at s a S T R d) by done.
      erewrite deferred_compute_reward_at
        by (by apply deferred_with_record_at).
      remember (previous_stake s S R d) as R1 eqn:ER1.
      unfold previous_stake, same_reward, with_record.
      DeferredFacts.fields. rewrite Nat.eqb_refl. clear ER1. lra.
    + injection Hc' as -> ->.
      rewrite (deferred_compute_reward_at s a S T R d) by done.
      erewrite deferred_compute_reward_at
        by (by apply deferred_with_record_at).
      remember (previous_stake s S R d) as R1 eqn:ER1.
      unfold previous_stake, same_reward, with_record.
      DeferredFacts.fields. rewrite Nat.eqb_refl. clear ER1.
      subst forfeit. lra.
  - assert (call_address c = Some a) as Hca by (by destruct Hc as [-> | ->]).
    destruct (deferred_others_call s c a b Hwf Hca Hne) as (E1 & E2 & E3 & E4).
    assert (is_Some (call_address c)) as Hsome by (rewrite Hca; eauto).
    assert (nonneg_call (ComputeReward b)) as Htriv by done.
    assert (reward_per_token (snd (perform c s)) = reward_per_token s ∧
            last_rate (snd (perform c s)) = last_rate s ∧
            current_distribution_id (snd (perform c s))
              = current_distribution_id s) as (G1 & G2 & G3).
    { clear E1 E2 E3 E4. revert Hca. by_view Hwf s c o s' V.
      by destruct V. }
    rewrite (deferred_compute_reward_local s (snd (perform c s)) b) by done.
    apply same_reward_refl.
Qed.

(** *** Settlement, shares and claims *)

Lemma deferred_claimable_at s a S T R d :
  record_at s a S T R d →
  claimable s a
  = S * reward_per_token s - T - previous_stake s S R d * last_rate s.
Proof.
  intros Hrec. unfold claimable.
  by rewrite (deferred_compute_reward_at s a S T R d).
Qed.

Lemma deferred_update_at s a S T R d :
  record_at s a S T R d →
  __update_rewarded_stake a s =
  (Return tt,
   with_record s a (total_stake s) (lost_reward s) S T
     (previous_stake s S R d) (current_distribution_id s)).
Proof.
  intros (HS & HT & HR & Hd).
  rewrite (DeferredFacts.update_rewarded_stake_known s a S T R d) by done.
  unfold with_record. by rewrite (insert_id (stake s)),
    (insert_id (reward_tally s)) by done.
Qed.

Lemma deferred_update_settled s a S T R :
  record_at s a S T R (current_distribution_id s) →
  __update_rewarded_stake a s = (Return tt, s).
Proof.
  intros Hrec. rewrite (deferred_update_at s a S T R _ Hrec).
  destruct Hrec as (HS & HT & HR & Hd).
  unfold with_record, previous_stake. rewrite Nat.eqb_refl.
  rewrite !insert_id by done. by destruct s.
Qed.

Lemma deferred_last_rate_le s :
  reachable s → last_rate s <= reward_per_token s.
Proof.
  induction 1 as [|c s Hs IH Hc]; [simpl; lra|].
  pose proof (deferred_rpt_nonneg s Hs) as Hrpt.
  apply DeferredFacts.deferred_reachable_wf in Hs.
  by_view Hs s c o s' V.
  destruct V; unfold with_record; DeferredFacts.fields; lra.
Qed.

Lemma deferred_accrued_nonneg s a : wf s → 0 <= accrued s a.
Proof.
  intros Hwf. destruct (decide (a ∈ ({[ 1%Z; 2%Z ]} : gset Z))) as [Ha|Ha].
  - destruct (DeferredFacts.deferred_wf_known s a Hwf Ha)
      as (S & T & R & d & HS & HT & HR & Hd).
    pose proof (wf_accounts s Hwf a S T R d HS HT HR Hd) as Hok.
    pose proof (DeferredFacts.previous_stake_nonneg s S T R d Hok).
    pose proof (ok_reward _ _ _ _ _ Hok). pose proof (wf_last_rate s Hwf).
    rewrite (deferred_record_accrued s a S T R d) by done.
    assert (0 <= previous_stake s S R d * last_rate s)
      by (by apply Qmult_le_0_compat).
    lra.
  - destruct (DeferredFacts.deferred_wf_unknown s a Hwf Ha) as (HS & HT & _).
    unfold accrued, stake_of, tally_of. rewrite HS, HT. simpl. lra.
Qed.

Lemma deferred_claimable_le_accrued s a :
  wf s → a ∈ accounts s → claimable s a <= accrued s a.
Proof.
  intros Hwf Ha. apply DeferredFacts.deferred_wf_accounts_elem in Ha; [|done].
  destruct (DeferredFacts.deferred_wf_known s a Hwf Ha)
    as (S & T & R & d & HS & HT & HR & Hd).
  pose proof (wf_accounts s Hwf a S T R d HS HT HR Hd) as Hok.
  pose proof (DeferredFacts.previous_stake_nonneg s S T R d Hok).
  pose proof (wf_last_rate s Hwf).
  rewrite (deferred_claimable_at s a S T R d),
    (deferred_record_accrued s a S T R d) by done.
  assert (0 <= previous_stake s S R d * last_rate s)
    by (by apply Qmult_le_0_compat).
  lra.
Qed.

Lemma sum_over_le f g l :
  (∀ a, a ∈ l → f a <= g a) → sum_over f l <= sum_over g l.
Proof.
  induction l as [|x l IH]; intros H; simpl; [lra|].
  pose proof (H x (list_elem_of_here _ _)).
  assert (sum_over f l <= sum_over g l)
    by (apply IH; intros a Ha; apply H; by right).
  lra.
Qed.

Lemma deferred_outstanding_after calls s :
  reachable s → Forall nonneg_call calls →
  outstanding (after calls s) == outstanding s + net_inflow calls s.
Proof.
  intros Hs Hcalls. revert s Hs.
  induction Hcalls as [|c calls Hc _ IH]; intros s Hs; simpl; [lra|].
  rewrite IH by (by constructor).
  rewrite deferred_outstanding_call
    by (by apply DeferredFacts.deferred_reachable_wf).
  lra.
Qed.

End DeferredCalls.

(** ** Policy A: what a user of the ledger can rely on *)

(** Conservation.  Along any run of calls with non-negative rewards and
    amounts, from any reachable state, the reward the ledger holds
    (credited to accounts and not yet paid, plus [lost_reward]) grows by
    exactly the rewards given to successful [distribute] calls minus the
    rewards [withdraw_reward] returned: no reward is created or lost. *)
Theorem deferred_reward_conservation (calls : list call) (s : Deferred.state) :
  Deferred.reachable s → Forall nonneg_call calls →
  Deferred.outstanding (Deferred.after calls s) ==
  Deferred.outstanding s + Deferred.net_inflow calls s.
Proof.
  intros Hs Hcalls. by apply DeferredCalls.deferred_outstanding_after.
Qed.

Lemma deferred_reward_conservation_witness :
  let calls :=
    [DepositStake 1 4; DepositStake 2 4; Distribute 2; WithdrawStake 1 2;
     Distribute 2; WithdrawReward 2; WithdrawReward 1] in
  Forall nonneg_call calls ∧
  Deferred.outstanding (Deferred.after calls Deferred.init) ==
  Deferred.outstanding Deferred.init + Deferred.net_inflow calls Deferred.init.
Proof.
  intros calls.
  assert (Forall nonneg_call calls) as Hcalls
    by (repeat constructor; simpl; lra).
  split; [done|].
  apply (deferred_reward_conservation calls Deferred.init); [constructor|done].
Defined.

(** The accumulator only moves forward, and only [distribute] moves it:
    after any call with a non-negative reward or amount [reward_per_token]
    and [current_distribution_id] are at least what they were, and a call
    about an address leaves [reward_per_token], [last_rate] and
    [current_distribution_id] exactly as they were. *)
Theorem deferred_accumulator_monotone (s : Deferred.state) (c : call) :
  Deferred.reachable s → nonneg_call c →
  Deferred.reward_per_token s
    <= Deferred.reward_per_token (snd (Deferred.perform c s)) ∧
  (Deferred.current_distribution_id s
     ≤ Deferred.current_distribution_id (snd (Deferred.perform c s)))%nat ∧
  (is_Some (call_address c) →
   Deferred.reward_per_token (snd (Deferred.perform c s))
     = Deferred.reward_per_token s ∧
   Deferred.last_rate (snd (Deferred.perform c s)) = Deferred.last_rate s ∧
   Deferred.current_distribution_id (snd (Deferred.perform c s))
     = Deferred.current_distribution_id s).
Proof.
  intros Hs Hc. apply DeferredCalls.deferred_accumulator_call; [|done].
  by apply DeferredFacts.deferred_reachable_wf.
Qed.

Lemma deferred_accumulator_monotone_witness :
  let s := Deferred.after [DepositStake 1 4; Distribute 2] Deferred.init in
  Deferred.reachable s ∧
  Deferred.reward_per_token s
    <= Deferred.reward_per_token (snd (Deferred.perform (Distribute 3) s)) ∧
  Deferred.reward_per_token (snd (Deferred.perform (WithdrawStake 1 1) s))
    = Deferred.reward_per_token s.
Proof.
  intros s.
  assert (Deferred.reachable s) as Hs.
  { apply deferred_reachable_after; [constructor|].
    repeat constructor; simpl; lra. }
  split; [done|]. split.
  - apply (deferred_accumulator_monotone s (Distribute 3) Hs). simpl. lra.
  - apply (deferred_accumulator_monotone s (WithdrawStake 1 1) Hs);
      simpl; [lra | eauto].
Defined.

(** A call about one address never touches the record of another:
    the other account's [stake], [reward_tally], [rewarded_stake] and
    [distribution_id] entries are what they were. *)
Theorem deferred_other_accounts_untouched
    (s : Deferred.state) (c : call) (address other : Z) :
  Deferred.reachable s → call_address c = Some address → other ≠ address →
  Deferred.stake (snd (Deferred.perform c s)) !! other
    = Deferred.stake s !! other ∧
  Deferred.reward_tally (snd (Deferred.perform c s)) !! other
    = Deferred.reward_tally s !! other ∧
  Deferred.rewarded_stake (snd (Deferred.perform c s)) !! other
    = Deferred.rewarded_stake s !! other ∧
  Deferred.distribution_id (snd (Deferred.perform c s)) !! other
    = Deferred.distribution_id s !! other.
Proof.
  intros Hs. apply DeferredCalls.deferred_others_call.
  by apply DeferredFacts.deferred_reachable_wf.
Qed.

Lemma deferred_other_accounts_untouched_witness :
  let s := Deferred.after [DepositStake 1 4; DepositStake 2 6; Distribute 2]
             Deferred.init in
  Deferred.reachable s ∧
  Deferred.stake (snd (Deferred.perform (WithdrawStake 1 3) s)) !! 2%Z
    = Deferred.stake s !! 2%Z ∧
  Deferred.reward_tally (snd (Deferred.perform (WithdrawStake 1 3) s)) !! 2%Z
    = Deferred.reward_tally s !! 2%Z.
Proof.
  intros s.
  assert (Deferred.reachable s) as Hs.
  { apply deferred_reachable_after; [constructor|].
    repeat constructor; simpl; lra. }
  split; [done|].
  destruct (deferred_other_accounts_untouched s (WithdrawStake 1 3) 1 2 Hs)
    as (H1 & H2 & _); done.
Defined.

(** Changing a stake never changes what anybody can claim: after
    [deposit_stake] or [withdraw_stake] on one address, [compute_reward]
    gives, for every address, the same amount (or the same exception) as
    before the call. *)
Theorem deferred_stake_calls_keep_rewards
    (s : Deferred.state) (c : call) (address : Z) (amount : Q) (other : Z) :
  Deferred.reachable s →
  c = DepositStake address amount ∨ c = WithdrawStake address amount →
  same_reward (fst (Deferred.compute_reward other s))
    (fst (Deferred.compute_reward other (snd (Deferred.perform c s)))).
Proof.
  intros Hs. apply DeferredCalls.deferred_stake_call_reward.
  by apply DeferredFacts.deferred_reachable_wf.
Qed.

Lemma deferred_stake_calls_keep_rewards_witness :
  let s := Deferred.after
             [DepositStake 1 4; DepositStake 2 4; Distribute 2; Distribute 4]
             Deferred.init in
  Deferred.reachable s ∧
  same_reward (fst (Deferred.compute_reward 1 s))
    (fst (Deferred.compute_reward 1
            (snd (Deferred.perform (WithdrawStake 1 3) s)))).
Proof.
  intros s.
  assert (Deferred.reachable s) as Hs.
  { apply deferred_reachable_after; [constructor|].
    repeat constructor; simpl; lra. }
  split; [done|].
  apply (deferred_stake_calls_keep_rewards s _ 1 3 1 Hs). by right.
Defined.

(** Settling an account changes nothing a caller can see.  On an address
    with a record [__update_rewarded_stake] succeeds, stamps the account
    with the current epoch and touches no stake, tally or total;
    [compute_reward] gives for every address exactly what it gave before;
    and settling a second time leaves the state as it is. *)
Theorem deferred_settlement_neutral (s : Deferred.state) (address : Z) :
  Deferred.reachable s → is_Some (Deferred.stake s !! address) →
  let s1 := snd (Deferred.__update_rewarded_stake address s) in
  fst (Deferred.__update_rewarded_stake address s) = Return tt ∧
  Deferred.distribution_id s1 !! address
    = Some (Deferred.current_distribution_id s) ∧
  (∀ other, fst (Deferred.compute_reward other s1)
            = fst (Deferred.compute_reward other s)) ∧
  Deferred.__update_rewarded_stake address s1 = (Return tt, s1) ∧
  Deferred.stake s1 = Deferred.stake s ∧
  Deferred.reward_tally s1 = Deferred.reward_tally s ∧
  Deferred.total_stake s1 = Deferred.total_stake s ∧
  Deferred.lost_reward s1 = Deferred.lost_reward s.
Proof.
  intros Hs Ha s1. apply DeferredFacts.deferred_reachable_wf in Hs.
  destruct (DeferredCalls.deferred_record_exists s address Hs Ha)
    as (S & T & R & d & Hrec).
  pose proof (DeferredCalls.deferred_update_at s address S T R d Hrec) as Hup.
  subst s1. rewrite Hup. cbn [fst snd].
  set (R1 := Deferred.previous_stake s S R d).
  set (s1 := Deferred.with_record _ _ _ _ _ _ _ _).
  assert (Deferred.record_at s1 address S T R1
            (Deferred.current_distribution_id s1)) as Hrec1
    by apply DeferredCalls.deferred_with_record_at.
  destruct Hrec as (HS & HT & HR & Hd).
  split; [done|]. split; [apply lookup_insert_eq|]. split; [|split].
  - intros other. destruct (decide (other = address)) as [->|Hne].
    + rewrite (DeferredCalls.deferred_compute_reward_at s1 address S T R1 _
                 Hrec1).
      rewrite (DeferredCalls.deferred_compute_reward_at s address S T R d)
        by done.
      unfold Deferred.previous_stake at 1. by rewrite Nat.eqb_refl.
    + destruct (DeferredCalls.deferred_with_record_other s address
                  (Deferred.total_stake s) (Deferred.lost_reward s) S T R1
                  (Deferred.current_distribution_id s) other Hne)
        as (E1 & E2 & E3 & E4).
      by apply DeferredCalls.deferred_compute_reward_local.
  - by apply (DeferredCalls.deferred_update_settled s1 address S T R1).
  - subst s1. unfold Deferred.with_record. DeferredFacts.fields.
    by rewrite !insert_id.
Qed.

Lemma deferred_settlement_neutral_witness :
  let s := Deferred.after [DepositStake 1 4; Distribute 2] Deferred.init in
  Deferred.reachable s ∧
  Deferred.distribution_id s !! 1%Z = Some 0%nat ∧
  Deferred.distribution_id
    (snd (Deferred.__update_rewarded_stake 1 s)) !! 1%Z = Some 1%nat ∧
  fst (Deferred.compute_reward 1
         (snd (Deferred.__update_rewarded_stake 1 s)))
    = fst (Deferred.compute_reward 1 s).
Proof.
  intros s.
  assert (Deferred.reachable s) as Hs.
  { apply deferred_reachable_after; [constructor|].
    repeat constructor; simpl; lra. }
  assert (is_Some (Deferred.stake s !! 1%Z)) as Ha by (by vm_compute; eauto).
  split; [done|]. split; [by vm_compute|].
  destruct (deferred_settlement_neutral s 1 Hs Ha) as (_ & H1 & H2 & _).
  split; [exact H1 | exact (H2 1%Z)].
Defined.

(** The shares of a distribution.  A successful [distribute(reward)]
    credits every account [stake * rate] with
    [rate = (reward + lost_reward) / total_stake]; these shares add up to
    [reward + lost_reward], and [lost_reward] is reset.  The new share is
    deferred: right after the call an account can claim what had been
    credited to it before the call, the earlier deferred share included,
    and nothing of the new one. *)
Theorem deferred_distribute_shares (s : Deferred.state) (reward : Q) :
  Deferred.reachable s → ¬ Deferred.total_stake s == 0 →
  let s' := snd (Deferred.distribute reward s) in
  let rate := (reward + Deferred.lost_reward s) / Deferred.total_stake s in
  (∀ a, Deferred.accrued s' a
        == Deferred.accrued s a + Deferred.stake_of s a * rate) ∧
  sum_over (λ a, Deferred.stake_of s a * rate) (Deferred.accounts s)
    == reward + Deferred.lost_reward s ∧
  Deferred.lost_reward s' = 0 ∧
  (∀ a, a ∈ Deferred.accounts s →
        Deferred.claimable s' a == Deferred.accrued s a).
Proof.
  intros Hs H0 s' rate. apply DeferredFacts.deferred_reachable_wf in Hs.
  subst s'. rewrite DeferredFacts.distribute_staked by done. cbn [snd].
  fold rate. set (s' := Deferred.State _ _ _ _ _ _ _ _ _).
  split; [|split; [|split]].
  - intros a. unfold Deferred.accrued, Deferred.stake_of, Deferred.tally_of.
    subst s'. DeferredFacts.fields. lra.
  - rewrite DeferredCalls.stake_share_sum, (Deferred.wf_total_stake s Hs).
    subst rate. field. done.
  - done.
  - intros a Ha.
    apply DeferredFacts.deferred_wf_accounts_elem in Ha; [|done].
    destruct (DeferredFacts.deferred_wf_known s a Hs Ha)
      as (S & T & R & d & HS & HT & HR & Hd).
    pose proof (Deferred.ok_epoch _ _ _ _ _
                  (Deferred.wf_accounts s Hs a S T R d HS HT HR Hd)) as Hd'.
    rewrite (DeferredCalls.deferred_claimable_at s' a S T R d) by done.
    rewrite (DeferredCalls.deferred_record_accrued s a S T R d) by done.
    unfold Deferred.previous_stake. subst s'. DeferredFacts.fields.
    destruct (Nat.eqb_spec d (Deferred.current_distribution_id s + 1));
      [lia | lra].
Qed.

Lemma deferred_distribute_shares_witness :
  let s := Deferred.after [DepositStake 1 4; DepositStake 2 6; Distribute 5]
             Deferred.init in
  Deferred.reachable s ∧ ¬ Deferred.total_stake s == 0 ∧
  Deferred.claimable (snd (Deferred.distribute 10 s)) 1
    == Deferred.accrued s 1 ∧
  Deferred.accrued s 1 == 2.
Proof.
  intros s.
  assert (Deferred.reachable s) as Hs.
  { apply deferred_reachable_after; [constructor|].
    repeat constructor; simpl; lra. }
  assert (¬ Deferred.total_stake s == 0) as H0 by (by vm_compute).
  split; [done|]. split; [done|]. split; [|by vm_compute].
  destruct (deferred_distribute_shares s 10 Hs H0) as (_ & _ & _ & H).
  apply H. vm_compute. set_solver.
Defined.

(** What a withdrawal forfeits.  A successful [withdraw_stake] of
    [amount] from an account with stake [S], of which [counted] was
    counted in the latest distribution, lowers the stake and
    [total_stake] by [amount] and moves the deferred share of the
    withdrawn counted stake, [max(0, amount - (S - counted)) * last_rate],
    from the account to [lost_reward]. *)
Theorem deferred_withdraw_stake_forfeits
    (s : Deferred.state) (address : Z) (amount S T R : Q) (d : nat) :
  Deferred.reachable s → Deferred.record_at s address S T R d →
  amount <= S →
  let s' := snd (Deferred.withdraw_stake address amount s) in
  let counted := Deferred.previous_stake s S R d in
  let forfeit := Qmax 0 (amount - (S - counted)) * Deferred.last_rate s in
  fst (Deferred.withdraw_stake address amount s) = Return tt ∧
  Deferred.stake_of s' address == S - amount ∧
  Deferred.total_stake s' == Deferred.total_stake s - amount ∧
  Deferred.lost_reward s' == Deferred.lost_reward s + forfeit ∧
  Deferred.accrued s' address == Deferred.accrued s address - forfeit.
Proof.
  intros Hs Hrec Hle s' counted forfeit.
  apply DeferredFacts.deferred_reachable_wf in Hs.
  pose proof (DeferredFacts.previous_stake_le s S T R d
                (DeferredCalls.deferred_record_ok s address S T R d Hs Hrec))
    as Hcounted.
  pose proof (DeferredCalls.rewarded_part_spec amount S _ Hcounted) as Hpart.
  rewrite (DeferredCalls.deferred_record_accrued s address S T R d) by done.
  destruct Hrec as (HS & HT & HR & Hd).
  subst s'.
  rewrite (DeferredFacts.deferred_withdraw_stake_known s address S T R d)
    by done.
  cbn [fst snd]. subst forfeit counted.
  assert (Deferred.rewarded_part amount S (Deferred.previous_stake s S R d)
            * Deferred.last_rate s
          == Qmax 0 (amount - (S - Deferred.previous_stake s S R d))
             * Deferred.last_rate s) as Hf by (by rewrite Hpart).
  unfold Deferred.rewarded_part in Hf.
  unfold Deferred.accrued, Deferred.stake_of, Deferred.tally_of.
  DeferredFacts.fields. rewrite !lookup_insert_eq. simpl.
  repeat split; lra.
Qed.

Lemma deferred_withdraw_stake_forfeits_witness :
  let s := Deferred.after [DepositStake 1 4; Distribute 2] Deferred.init in
  Deferred.reachable s ∧
  Deferred.lost_reward (snd (Deferred.withdraw_stake 1 3 s))
    == Deferred.lost_reward s + Qmax 0 (3 - (4 - 4)) * Deferred.last_rate s ∧
  Deferred.lost_reward (snd (Deferred.withdraw_stake 1 3 s)) == 3 / 2.
Proof.
  intros s.
  assert (Deferred.reachable s) as Hs.
  { apply deferred_reachable_after; [constructor|].
    repeat constructor; simpl; lra. }
  assert (Deferred.record_at s 1 4 0 0 0) as Hrec by (by vm_compute).
  assert (3 <= 4) as Hle by lra.
  split; [done|]. split; [|by vm_compute].
  apply (deferred_withdraw_stake_forfeits s 1 3 4 0 0 0%nat Hs Hrec Hle).
Defined.

(** Depositing and at once withdrawing the same amount costs nothing.
    Both calls succeed, the withdrawal forfeits no reward, and the
    account's stake and tally, [total_stake] and [lost_reward] are back
    at their values. *)
Theorem deferred_deposit_withdraw_round_trip
    (s : Deferred.state) (address : Z) (amount : Q) :
  Deferred.reachable s → is_Some (Deferred.stake s !! address) →
  0 <= amount →
  let s1 := snd (Deferred.perform (DepositStake address amount) s) in
  let s2 := snd (Deferred.perform (WithdrawStake address amount) s1) in
  fst (Deferred.perform (DepositStake address amount) s) = Return None ∧
  fst (Deferred.perform (WithdrawStake address amount) s1) = Return None ∧
  Deferred.stake_of s2 address == Deferred.stake_of s address ∧
  Deferred.tally_of s2 address == Deferred.tally_of s address ∧
  Deferred.total_stake s2 == Deferred.total_stake s ∧
  Deferred.lost_reward s2 == Deferred.lost_reward s.
Proof.
  intros Hs Ha Hamount s1 s2.
  apply DeferredFacts.deferred_reachable_wf in Hs.
  destruct (DeferredCalls.deferred_record_exists s address Hs Ha)
    as (S & T & R & d & Hrec).
  pose proof (DeferredCalls.deferred_record_ok s address S T R d Hs Hrec)
    as Hok.
  pose proof (DeferredFacts.previous_stake_le s S T R d Hok) as Hcounted.
  pose proof (Deferred.ok_stake _ _ _ _ _ Hok) as HS0.
  destruct Hrec as (HS & HT & HR & Hd).
  assert (Deferred.perform (DepositStake address amount) s
          = (Return None,
             Deferred.with_record s address (Deferred.total_stake s + amount)
               (Deferred.lost_reward s) (S + amount)
               (T + Deferred.reward_per_token s * amount)
               (Deferred.previous_stake s S R d)
               (Deferred.current_distribution_id s))) as E1.
  { unfold Deferred.perform. unfold_method.
    by rewrite (DeferredFacts.deferred_deposit_stake_known s address S T R d). }
  subst s2 s1. rewrite E1. cbn [fst snd].
  set (R1 := Deferred.previous_stake s S R d) in *.
  set (s1 := Deferred.with_record _ _ _ _ _ _ _ _).
  assert (Deferred.record_at s1 address (S + amount)
            (T + Deferred.reward_per_token s * amount) R1
            (Deferred.current_distribution_id s1)) as (HS1 & HT1 & HR1 & Hd1)
    by apply DeferredCalls.deferred_with_record_at.
  assert (amount <= S + amount) as Hle by lra.
  unfold Deferred.perform. unfold_method.
  rewrite (DeferredFacts.deferred_withdraw_stake_known s1 address _ _ _ _
             HS1 HT1 HR1 Hd1 amount Hle).
  cbn [fst snd].
  unfold Deferred.stake_of, Deferred.tally_of, Deferred.previous_stake.
  subst s1. unfold Deferred.with_record. DeferredFacts.fields.
  rewrite Nat.eqb_refl, !lookup_insert_eq, HS, HT. simpl.
  assert (amount - py_min amount (py_max (S + amount - R1) 0) == 0) as Hpart.
  { destruct (py_max_cases (S + amount - R1) 0) as [[? ->]|[? ->]]; [lra|].
    destruct (py_min_cases amount (S + amount - R1)) as [[? ->]|[? ->]]; lra. }
  set (part := amount - py_min amount (py_max (S + amount - R1) 0)) in *.
  assert (part * Deferred.last_rate s == 0) as Hf by (rewrite Hpart; lra).
  repeat split; lra.
Qed.

Lemma deferred_deposit_withdraw_round_trip_witness :
  let s := Deferred.after [DepositStake 1 4; Distribute 2] Deferred.init in
  let s2 := Deferred.after [DepositStake 1 3; WithdrawStake 1 3] s in
  Deferred.reachable s ∧
  Deferred.tally_of s2 1 == Deferred.tally_of s 1 ∧
  Deferred.lost_reward s2 == Deferred.lost_reward s.
Proof.
  intros s s2.
  assert (Deferred.reachable s) as Hs.
  { apply deferred_reachable_after; [constructor|].
    repeat constructor; simpl; lra. }
  assert (is_Some (Deferred.stake s !! 1%Z)) as Ha by (by vm_compute; eauto).
  assert (0 <= 3) as H3 by lra.
  split; [done|].
  destruct (deferred_deposit_withdraw_round_trip s 1 3 Hs Ha H3)
    as (_ & _ & _ & H1 & _ & H2).
  split; [exact H1 | exact H2].
Defined.

(** No quantity of the ledger goes negative.  In every reachable state
    [total_stake], [reward_per_token], [last_rate] and [lost_reward] are
    non-negative, [last_rate] is at most [reward_per_token], and every
    account has a non-negative stake and has been paid no more than the
    accumulator credits to its stake
    ([reward_tally <= stake * reward_per_token]). *)
Theorem deferred_quantities_nonneg (s : Deferred.state) :
  Deferred.reachable s →
  0 <= Deferred.total_stake s ∧ 0 <= Deferred.reward_per_token s ∧
  0 <= Deferred.last_rate s ∧
  Deferred.last_rate s <= Deferred.reward_per_token s ∧
  0 <= Deferred.lost_reward s ∧
  ∀ a, 0 <= Deferred.stake_of s a ∧
       Deferred.tally_of s a
         <= Deferred.stake_of s a * Deferred.reward_per_token s.
Proof.
  intros Hs. pose proof (DeferredFacts.deferred_reachable_wf s Hs) as Hwf.
  split; [by apply DeferredFacts.deferred_wf_total_stake_nonneg|].
  split; [by apply DeferredCalls.deferred_rpt_nonneg|].
  split; [by apply Deferred.wf_last_rate|].
  split; [by apply DeferredCalls.deferred_last_rate_le|].
  split; [by apply Deferred.wf_lost_reward|].
  intros a. split; [by apply DeferredFacts.wf_stake_of_nonneg|].
  pose proof (DeferredCalls.deferred_accrued_nonneg s a Hwf) as H.
  unfold Deferred.accrued in H. lra.
Qed.

Lemma deferred_quantities_nonneg_witness :
  let s := Deferred.after
             [DepositStake 1 4; Distribute 2; WithdrawStake 1 3;
              WithdrawReward 1]
             Deferred.init in
  Deferred.reachable s ∧
  Deferred.tally_of s 1
    <= Deferred.stake_of s 1 * Deferred.reward_per_token s ∧
  0 <= Deferred.lost_reward s.
Proof.
  intros s.
  assert (Deferred.reachable s) as Hs.
  { apply deferred_reachable_after; [constructor|].
    repeat constructor; simpl; lra. }
  split; [done|].
  destruct (deferred_quantities_nonneg s Hs) as (_ & _ & _ & _ & H1 & H2).
  split; [apply H2 | exact H1].
Defined.

(** The ledger never owes more than it was given.  After any run of
    calls with non-negative rewards and amounts on the fresh ledger, what
    all accounts together can claim is at most the rewards given to
    successful [distribute] calls minus the rewards [withdraw_reward] has
    returned. *)
Theorem deferred_solvency (calls : list call) :
  Forall nonneg_call calls →
  let s := Deferred.after calls Deferred.init in
  sum_over (Deferred.claimable s) (Deferred.accounts s)
    <= Deferred.net_inflow calls Deferred.init.
Proof.
  intros Hcalls s.
  assert (Deferred.reachable s) as Hs
    by (apply deferred_reachable_after; [constructor | done]).
  pose proof (DeferredFacts.deferred_reachable_wf s Hs) as Hwf.
  pose proof (DeferredCalls.deferred_outstanding_after calls Deferred.init
                Deferred.reachable_init Hcalls) as Hcons.
  fold s in Hcons.
  assert (Deferred.outstanding Deferred.init == 0) as Hinit by (by vm_compute).
  pose proof (Deferred.wf_lost_reward s Hwf) as Hlost.
  pose proof (DeferredCalls.sum_over_le (Deferred.claimable s)
                (Deferred.accrued s) (Deferred.accounts s)
                (λ a Ha, DeferredCalls.deferred_claimable_le_accrued s a
                           Hwf Ha)) as Hle.
  unfold Deferred.outstanding in Hcons at 1. lra.
Qed.

Lemma deferred_solvency_witness :
  let calls :=
    [DepositStake 1 4; DepositStake 2 4; Distribute 2; WithdrawStake 1 2;
     Distribute 2; WithdrawReward 2] in
  Forall nonneg_call calls ∧
  sum_over (Deferred.claimable (Deferred.after calls Deferred.init))
    (Deferred.accounts (Deferred.after calls Deferred.init))
    <= Deferred.net_inflow calls Deferred.init.
Proof.
  intros calls.
  assert (Forall nonneg_call calls) as Hcalls
    by (repeat constructor; simpl; lra).
  split; [done|]. apply (deferred_solvency calls Hcalls).
Defined.
